(** * The photo-taker sample application: cache, snapshot files, routes

    A shallow embedding of [src/index.ts] (and of the earlier revision of
    the same file, whose [cachePhoto] lives in [Module Original]).

    Values are modelled as the running JavaScript sees them: the fields of
    a photo that the code guards with [??] or [!] are optional, a [Date]
    holds a time value in milliseconds or is an Invalid Date, on which
    [toISOString] throws, a [Buffer] is a list of bytes, the
    class fields of [ExampleMentraOSApp] are finite maps keyed by the user
    id.  Calls into the host (clock, file system, camera, object store,
    logger, layouts) are steps of a small state-and-exception monad; what
    the host answers is read from an oracle, so every statement below
    holds for every behaviour of the host.

    Two things are fixed by the model: paths are POSIX paths, and a
    handler runs to its end before the next one starts (an [await] is a
    step like any other; two handlers are not interleaved). *)

From Stdlib Require Import ZArith List Ascii String Lia.
From stdpp Require Import base option list strings gmap.

Local Open Scope string_scope.
Local Open Scope Z_scope.

(** ** Strings *)

(** [s.replace(/[:]/g, "-")] and its kin: a character-wise substitution. *)
Fixpoint map_chars (f : ascii → ascii) (s : string) : string :=
  match s with
  | EmptyString => EmptyString
  | String c r => String (f c) (map_chars f r)
  end.

Definition colon_to_hyphen (c : ascii) : ascii :=
  if Ascii.eqb c ":" then "-"%char else c.

(** Does the character [c] occur in [s]? *)
Fixpoint occurs (c : ascii) (s : string) : bool :=
  match s with
  | EmptyString => false
  | String d r => Ascii.eqb d c || occurs c r
  end.

(** [parts.join(sep)] *)
Fixpoint join_with (sep : string) (parts : list string) : string :=
  match parts with
  | [] => ""
  | [p] => p
  | p :: rest => p ++ sep ++ join_with sep rest
  end.

(** The segments of a path between its ["/"] characters. *)
Fixpoint split_slash (s : string) : list string :=
  match s with
  | EmptyString => [""]
  | String c r =>
      if Ascii.eqb c "/" then "" :: split_slash r
      else match split_slash r with
           | h :: t => String c h :: t
           | [] => [String c ""]
           end
  end.

Definition starts_with_slash (s : string) : bool :=
  match s with
  | String c _ => Ascii.eqb c "/"
  | EmptyString => false
  end.

Fixpoint ends_with_slash (s : string) : bool :=
  match s with
  | EmptyString => false
  | String c EmptyString => Ascii.eqb c "/"
  | String _ r => ends_with_slash r
  end.

(** ** Dates and numbers

    A time value is a number of milliseconds since the epoch, UTC, of
    magnitude at most 8.64e15.  A [Date] holds a time value, or none:
    then it is an Invalid Date, and the number it gives for its time is
    NaN. *)

Definition maxTimeValue : Z := 8640000000000000.

Definition in_range (t : Z) : bool :=
  (- maxTimeValue <=? t) && (t <=? maxTimeValue).

Record TimeValue := { ms : Z; ms_in_range : in_range ms = true }.

Inductive Date :=
| DateAt (t : TimeValue)
| InvalidDate.

(** A number that may be NaN. *)
Inductive Number :=
| Num (z : Z)
| NaN.

(** [new Date(value)]: a value out of range gives an Invalid Date. *)
Definition Date_from (value : Z) : Date :=
  match in_range value as b return in_range value = b → Date with
  | true => fun H => DateAt {| ms := value; ms_in_range := H |}
  | false => fun _ => InvalidDate
  end eq_refl.

Definition digit (d : Z) : ascii := ascii_of_nat (48 + Z.to_nat (d mod 10)).

(** The [n] low decimal digits of [v], most significant first. *)
Fixpoint pad (n : nat) (v : Z) : string :=
  match n with
  | O => ""
  | S k => pad k (v / 10) ++ String (digit v) ""
  end.

Definition msPerDay : Z := 86400000.

(** Day number (days since 1970-01-01) to proleptic Gregorian
    [(year, month, day)]. *)
Definition civil_from_days (days : Z) : Z * Z * Z :=
  let z := days + 719468 in
  let era := z / 146097 in
  let doe := z mod 146097 in
  let yoe := (doe - doe / 1460 + doe / 36524 - doe / 146096) / 365 in
  let doy := doe - (365 * yoe + yoe / 4 - yoe / 100) in
  let mp := (5 * doy + 2) / 153 in
  let d := doy - (153 * mp + 2) / 5 + 1 in
  let m := if mp <? 10 then mp + 3 else mp - 9 in
  let y := yoe + era * 400 + (if m <=? 2 then 1 else 0) in
  (y, m, d).

(** Years 0 to 9999 print as four digits, the others as a sign and six. *)
Definition iso_year (y : Z) : string :=
  if (0 <=? y) && (y <=? 9999) then pad 4 y
  else (if y <? 0 then "-" else "+") ++ pad 6 (Z.abs y).

(** The ISO form of a time value: [YYYY-MM-DDTHH:mm:ss.sssZ]. *)
Definition isoString (tv : Z) : string :=
  let '(y, m, dd) := civil_from_days (tv / msPerDay) in
  let t := tv mod msPerDay in
  iso_year y ++ "-" ++ pad 2 m ++ "-" ++ pad 2 dd ++ "T"
    ++ pad 2 (t / 3600000) ++ ":" ++ pad 2 (t / 60000 mod 60) ++ ":"
    ++ pad 2 (t / 1000 mod 60) ++ "." ++ pad 3 (t mod 1000) ++ "Z".

Arguments isoString : simpl never.

(** [d.getTime()] *)
Definition getTime (d : Date) : Number :=
  match d with
  | DateAt t => Num (ms t)
  | InvalidDate => NaN
  end.

(** ** Paths (POSIX [path.join])

    [normalizeString] of Node's [path] module, on the segments of the
    path: empty segments and ["."] vanish, [".."] removes the segment
    before it when there is one that is not itself [".."], and is kept
    only in a relative path.  The stack holds the last segment first. *)
Definition normalize_step (allowAboveRoot : bool) (stack : list string)
    (seg : string) : list string :=
  if String.eqb seg "" || String.eqb seg "." then stack
  else if String.eqb seg ".." then
    match stack with
    | top :: below =>
        if String.eqb top ".." then
          (if allowAboveRoot then seg :: stack else stack)
        else below
    | [] => if allowAboveRoot then [seg] else []
    end
  else seg :: stack.

Definition normalize_segments (allowAboveRoot : bool) (segs : list string)
    : list string :=
  rev (fold_left (normalize_step allowAboveRoot) segs []).

(** [path.normalize] *)
Definition path_normalize (p : string) : string :=
  if String.eqb p "" then "."
  else
    let isAbsolute := starts_with_slash p in
    let trailingSeparator := ends_with_slash p in
    let body :=
      join_with "/" (normalize_segments (negb isAbsolute) (split_slash p)) in
    if String.eqb body "" then
      (if isAbsolute then "/" else if trailingSeparator then "./" else ".")
    else
      (if isAbsolute then "/" else "")
        ++ body ++ (if trailingSeparator then "/" else "").

(** [path.join(...parts)]: the non-empty arguments joined by ["/"], then
    normalised. *)
Definition path_join (parts : list string) : string :=
  match List.filter (fun s => negb (String.eqb s "")) parts with
  | [] => "."
  | nonempty => path_normalize (join_with "/" nonempty)
  end.

(** The directory a path lives directly under, and its last segment. *)
Definition path_dirname (p : string) : string :=
  join_with "/" (removelast (split_slash p)).

Definition path_basename (p : string) : string :=
  List.last (split_slash p) "".

(** ** Data *)

Definition Buffer : Type := list Byte.byte.

(** [PhotoData], as the camera of the host hands it over.  The code
    guards [requestId] and [timestamp] with [??] and [mimeType] with [!],
    so the three may be absent. *)
Record PhotoData := {
  photo_requestId : option string;
  photo_buffer : Buffer;
  photo_timestamp : option Date;
  photo_mimeType : option string;
  photo_size : Z
}.

(** [interface StoredPhoto] *)
Record StoredPhoto := {
  requestId : option string;
  buffer : Buffer;
  timestamp : option Date;
  userId : string;
  mimeType : option string;
  filename : string;
  size : Z
}.

(** What the code reads of an [AppSession]: [sessionId], [userId] and
    [user?.id]. *)
Record AppSession := {
  sessionId : option string;
  session_userId : option string;
  session_user_id : option string
}.

Record Button := { buttonId : string; pressType : string }.

(** What can be thrown: a [TypeError] of the language (a method called on
    [undefined]), the [RangeError] of [toISOString] on an Invalid Date,
    or a rejection by one of the host's services. *)
Inductive Exn :=
| TypeError
| RangeError
| CameraError
| WriteError
| MkdirError
| UploadError
| RenderError.

Inductive Level := Info | Warn | Error.

(** One constructor per log statement of the source, with the values its
    template interpolates. *)
Inductive LogMsg :=
| SnapshotsDirReady (dir : string)
| CouldNotCreateSnapshotsDir (e : Exn)
| SessionStarted (session user : string)
| ButtonPressed (b : Button)
| StreamingIsNow (user : string) (flag : option bool)
| PhotoTaken (user : string) (ts : option Date)
| ErrorTakingPhoto (e : Exn)
| AutoStreamTriggered (user : string)
| AutoStreamRequesting (user : string)
| AutoStreamCaptured (user : string) (ts : option Date)
| AutoStreamAboutToCache
| AutoStreamCacheCompleted
| ErrorAutoTakingPhoto (e : Exn)
| SessionStopped
| UploadedToFirebase (file destination : string)
| FirebaseUploadFailed (file : string) (e : Exn)
| PhotoSavedToFile (path : string)
| TakingFollowUp (user : string)
| FollowUpTaken (user : string) (ts : option Date)
| ErrorTakingFollowUp (e : Exn)
| FailedToSavePhoto (e : Exn)
| PhotoCached (user : string) (ts : option Date)
| FollowUpSavedToFile (path : string)
| FailedToSaveFollowUp (e : Exn)
| FollowUpCached (user : string) (ts : option Date).

(** The [metadata] option of [bucket.upload]. *)
Record UploadMetadata := {
  contentType : option string;
  meta_userId : string;
  meta_requestId : option string;
  meta_timestamp : string
}.

(** An object of the external store: the local file it was read from and
    its metadata. *)
Record BucketObject := { source : string; metadata : UploadMetadata }.

(** What passes between the program and its host: the calls the program
    issues, and the rejections the host answers some of them with. *)
Inductive HostCall :=
| Log (lvl : Level) (msg : LogMsg)
| Mkdir (path : string)
| WriteFile (path : string) (data : Buffer)
| RequestPhoto (s : AppSession)
| Upload (filePath destination : string) (meta : UploadMetadata)
| ShowTextWall (text : string) (durationMs : Z)
| RenderFile (template : string)
| Rejected (e : Exn).

(** What the host answers to one call: whether it succeeds, the photo the
    camera delivers, the reading of the clock, the rendered page. *)
Record Answer := {
  ok : bool;
  shot : PhotoData;
  clock : TimeValue;
  page : string
}.

(** The state: the five maps of [ExampleMentraOSApp], the local files, the
    external store, the traffic with the host so far (latest first), and
    the host's answers, of which [asked] have been consumed. *)
Record World := {
  photos : gmap string (list StoredPhoto);
  latestPhotoTimestamp : gmap string Number;
  isStreamingPhotos : gmap string bool;
  nextPhotoTime : gmap string Z;
  sessionMap : gmap string AppSession;
  disk : gmap string Buffer;
  bucket : gmap string BucketObject;
  history : list HostCall;
  oracle : nat → Answer;
  asked : nat
}.

Definition set_photos (f : gmap string (list StoredPhoto) → gmap string (list StoredPhoto))
    (w : World) : World :=
  {| photos := f (photos w); latestPhotoTimestamp := latestPhotoTimestamp w;
     isStreamingPhotos := isStreamingPhotos w; nextPhotoTime := nextPhotoTime w;
     sessionMap := sessionMap w; disk := disk w; bucket := bucket w;
     history := history w; oracle := oracle w; asked := asked w |}.

Definition set_latestPhotoTimestamp
    (f : gmap string Number → gmap string Number) (w : World) : World :=
  {| photos := photos w; latestPhotoTimestamp := f (latestPhotoTimestamp w);
     isStreamingPhotos := isStreamingPhotos w; nextPhotoTime := nextPhotoTime w;
     sessionMap := sessionMap w; disk := disk w; bucket := bucket w;
     history := history w; oracle := oracle w; asked := asked w |}.

Definition set_isStreamingPhotos (f : gmap string bool → gmap string bool)
    (w : World) : World :=
  {| photos := photos w; latestPhotoTimestamp := latestPhotoTimestamp w;
     isStreamingPhotos := f (isStreamingPhotos w); nextPhotoTime := nextPhotoTime w;
     sessionMap := sessionMap w; disk := disk w; bucket := bucket w;
     history := history w; oracle := oracle w; asked := asked w |}.

Definition set_nextPhotoTime (f : gmap string Z → gmap string Z)
    (w : World) : World :=
  {| photos := photos w; latestPhotoTimestamp := latestPhotoTimestamp w;
     isStreamingPhotos := isStreamingPhotos w; nextPhotoTime := f (nextPhotoTime w);
     sessionMap := sessionMap w; disk := disk w; bucket := bucket w;
     history := history w; oracle := oracle w; asked := asked w |}.

Definition set_sessionMap (f : gmap string AppSession → gmap string AppSession)
    (w : World) : World :=
  {| photos := photos w; latestPhotoTimestamp := latestPhotoTimestamp w;
     isStreamingPhotos := isStreamingPhotos w; nextPhotoTime := nextPhotoTime w;
     sessionMap := f (sessionMap w); disk := disk w; bucket := bucket w;
     history := history w; oracle := oracle w; asked := asked w |}.

Definition set_disk (f : gmap string Buffer → gmap string Buffer)
    (w : World) : World :=
  {| photos := photos w; latestPhotoTimestamp := latestPhotoTimestamp w;
     isStreamingPhotos := isStreamingPhotos w; nextPhotoTime := nextPhotoTime w;
     sessionMap := sessionMap w; disk := f (disk w); bucket := bucket w;
     history := history w; oracle := oracle w; asked := asked w |}.

Definition set_bucket (f : gmap string BucketObject → gmap string BucketObject)
    (w : World) : World :=
  {| photos := photos w; latestPhotoTimestamp := latestPhotoTimestamp w;
     isStreamingPhotos := isStreamingPhotos w; nextPhotoTime := nextPhotoTime w;
     sessionMap := sessionMap w; disk := disk w; bucket := f (bucket w);
     history := history w; oracle := oracle w; asked := asked w |}.

Definition issue (c : HostCall) (w : World) : World :=
  {| photos := photos w; latestPhotoTimestamp := latestPhotoTimestamp w;
     isStreamingPhotos := isStreamingPhotos w; nextPhotoTime := nextPhotoTime w;
     sessionMap := sessionMap w; disk := disk w; bucket := bucket w;
     history := c :: history w; oracle := oracle w; asked := asked w |}.

Definition consume (w : World) : World :=
  {| photos := photos w; latestPhotoTimestamp := latestPhotoTimestamp w;
     isStreamingPhotos := isStreamingPhotos w; nextPhotoTime := nextPhotoTime w;
     sessionMap := sessionMap w; disk := disk w; bucket := bucket w;
     history := history w; oracle := oracle w; asked := S (asked w) |}.

(** ** The monad: state, and completion by return or by throw *)

Inductive Outcome (A : Type) :=
| Returned (a : A)
| Thrown (e : Exn).
Arguments Returned {A} a.
Arguments Thrown {A} e.

Definition M (A : Type) : Type := World → World * Outcome A.

Definition ret {A} (a : A) : M A := fun w => (w, Returned a).

Definition throw {A} (e : Exn) : M A := fun w => (w, Thrown e).

Definition bind {A B} (m : M A) (k : A → M B) : M B :=
  fun w =>
    match m w with
    | (w', Returned a) => k a w'
    | (w', Thrown e) => (w', Thrown e)
    end.

(** [try { body } catch (e) { handler e }]: what [body] did to the state
    before it threw stays done. *)
Definition try_catch {A} (body : M A) (handler : Exn → M A) : M A :=
  fun w =>
    match body w with
    | (w', Returned a) => (w', Returned a)
    | (w', Thrown e) => handler e w'
    end.

Definition gets {A} (f : World → A) : M A := fun w => (w, Returned (f w)).

Definition modify (f : World → World) : M unit := fun w => (f w, Returned tt).

Declare Scope m_scope.
Delimit Scope m_scope with M.
Notation "x <- m ;; k" := (bind m (fun x => k))
  (at level 100, m at next level, right associativity) : m_scope.
Notation "m ;; k" := (bind m (fun _ => k))
  (at level 100, right associativity) : m_scope.
Local Open Scope m_scope.

(** The state a computation leaves, and how it completes. *)
Definition exec {A} (m : M A) (w : World) : World := fst (m w).
Definition completion {A} (m : M A) (w : World) : Outcome A := snd (m w).

(** The traffic a computation adds to the history. *)
Definition issued {A} (m : M A) (w : World) : list HostCall :=
  let after := history (exec m w) in
  take (length after - length (history w)) after.

(** ** The host's services *)

(** The next answer of the host. *)
Definition ask : M Answer :=
  fun w => (consume w, Returned (oracle w (asked w))).

Definition call (c : HostCall) : M unit := modify (issue c).

(** The host rejects the call just issued. *)
Definition reject {A} (e : Exn) : M A := call (Rejected e) ;; throw e.

Definition logger_info (msg : LogMsg) : M unit := call (Log Info msg).
Definition logger_warn (msg : LogMsg) : M unit := call (Log Warn msg).
Definition logger_error (msg : LogMsg) : M unit := call (Log Error msg).

(** [Date.now()] and [new Date()] *)
Definition Date_now : M Z := a <- ask ;; ret (ms (clock a)).
Definition new_Date : M Date := a <- ask ;; ret (DateAt (clock a)).

(** [fs.mkdir(path, { recursive: true })] *)
Definition fs_mkdir (path : string) : M unit :=
  call (Mkdir path) ;;
  a <- ask ;;
  if ok a then ret tt else reject MkdirError.

(** [fs.writeFile(path, data)] *)
Definition fs_writeFile (path : string) (data : Buffer) : M unit :=
  call (WriteFile path data) ;;
  a <- ask ;;
  if ok a then modify (set_disk (insert path data)) else reject WriteError.

(** [session.camera.requestPhoto()] *)
Definition camera_requestPhoto (s : AppSession) : M PhotoData :=
  call (RequestPhoto s) ;;
  a <- ask ;;
  if ok a then ret (shot a) else reject CameraError.

(** [bucket.upload(filePath, { destination, metadata })] *)
Definition bucket_upload (filePath destination : string)
    (meta : UploadMetadata) : M unit :=
  call (Upload filePath destination meta) ;;
  a <- ask ;;
  if ok a then
    modify (set_bucket
              (insert destination {| source := filePath; metadata := meta |}))
  else reject UploadError.

(** [session.layouts.showTextWall(text, { durationMs })] *)
Definition layouts_showTextWall (text : string) (durationMs : Z) : M unit :=
  call (ShowTextWall text durationMs).

(** [ejs.renderFile(template, {})] *)
Definition ejs_renderFile (template : string) : M string :=
  call (RenderFile template) ;;
  a <- ask ;;
  if ok a then ret (page a) else reject RenderError.

(** [d.toISOString()]: the ISO form of the time value; on an Invalid
    Date it throws a [RangeError]. *)
Definition toISOString (d : Date) : M string :=
  match d with
  | DateAt t => ret (isoString (ms t))
  | InvalidDate => throw RangeError
  end.

(** A method called on a value that may be [undefined]: one that cannot
    throw, and one that can. *)
Definition method {A B} (f : A → B) (receiver : option A) : M B :=
  match receiver with
  | Some a => ret (f a)
  | None => throw TypeError
  end.

Definition throwing_method {A B} (f : A → M B) (receiver : option A) : M B :=
  match receiver with
  | Some a => f a
  | None => throw TypeError
  end.

(** ** The application *)

Section Application.

(** [process.cwd()] *)
Variable cwd : string.

Definition SNAPSHOTS_DIR : string := path_join [cwd; "snapshots"].

Definition extFromMime (mime : option string) : string :=
  match mime with
  | None => ".bin"
  | Some mime =>
      if String.eqb mime "" then ".bin"
      else if String.eqb mime "image/jpeg" || String.eqb mime "image/jpg"
      then ".jpg"
      else if String.eqb mime "image/png" then ".png"
      else if String.eqb mime "image/webp" then ".webp"
      else if String.eqb mime "image/gif" then ".gif"
      else if String.eqb mime "image/bmp" then ".bmp"
      else if String.eqb mime "image/tiff" then ".tiff"
      else ".bin"
  end.

Definition safeTimestamp (d : Date) : M string :=
  iso <- toISOString d ;;
  ret (map_chars colon_to_hyphen iso).

Definition ensureSnapshotsDirExists : M unit :=
  try_catch
    (fs_mkdir SNAPSHOTS_DIR ;;
     logger_info (SnapshotsDirReady SNAPSHOTS_DIR))
    (fun e => logger_warn (CouldNotCreateSnapshotsDir e)).

(** [this.photos.get(userId) ?? []] *)
Definition photos_of (user : string) (w : World) : list StoredPhoto :=
  default [] (photos w !! user).

(** [list.unshift(cachedPhoto); if (list.length > 50) list.length = 50;]
    on the array [list]. *)
Definition unshift_capped (cachedPhoto : StoredPhoto)
    (arr : list StoredPhoto) : list StoredPhoto :=
  let arr := cachedPhoto :: arr in
  if (50 <? length arr)%nat then take 50 arr else arr.

Definition uploadToFirebase (cachedPhoto : StoredPhoto) : M unit :=
  let filePath := path_join [SNAPSHOTS_DIR; filename cachedPhoto] in
  let destination :=
    "sessions/" ++ userId cachedPhoto ++ "/images/" ++ filename cachedPhoto in
  try_catch
    (iso <- throwing_method toISOString (timestamp cachedPhoto) ;;
     bucket_upload filePath destination
       {| contentType := mimeType cachedPhoto;
          meta_userId := userId cachedPhoto;
          meta_requestId := requestId cachedPhoto;
          meta_timestamp := iso |} ;;
     logger_info (UploadedToFirebase (filename cachedPhoto) destination))
    (fun err => logger_error (FirebaseUploadFailed (filename cachedPhoto) err)).

(** [`photo_${ts}_${photo.requestId ?? "unknown"}${ext}`] *)
Definition baseName (photo : PhotoData) (ts : string) : string :=
  "photo_" ++ ts ++ "_"
    ++ default "unknown" (photo_requestId photo)
    ++ extFromMime (photo_mimeType photo).

Definition fullPath (photo : PhotoData) (ts : string) : string :=
  path_join [SNAPSHOTS_DIR; baseName photo ts].

(** [photo.timestamp ?? new Date()] *)
Definition timestamp_or_now (photo : PhotoData) : M Date :=
  match photo_timestamp photo with
  | Some d => ret d
  | None => new_Date
  end.

(** The record both [cachePhoto] and [savePhotoOnly] build. *)
Definition cachedPhoto_of (photo : PhotoData) (user : string)
    (name : string) : StoredPhoto :=
  {| requestId := photo_requestId photo;
     buffer := photo_buffer photo;
     timestamp := photo_timestamp photo;
     userId := user;
     mimeType := photo_mimeType photo;
     filename := name;
     size := photo_size photo |}.

(** The lines from [const list = this.photos.get(userId) ?? []] to
    [this.latestPhotoTimestamp.set(...)]. *)
Definition cache_in_memory (cachedPhoto : StoredPhoto) (user : string)
    : M unit :=
  arr <- gets (photos_of user) ;;
  let arr := unshift_capped cachedPhoto arr in
  modify (set_photos (insert user arr)) ;;
  t <- method getTime (timestamp cachedPhoto) ;;
  modify (set_latestPhotoTimestamp (insert user t)).

Definition savePhotoOnly (photo : PhotoData) (user : string) : M unit :=
  d <- timestamp_or_now photo ;;
  ts <- safeTimestamp d ;;
  let baseName := baseName photo ts in
  let fullPath := fullPath photo ts in
  saved <- try_catch
    (fs_writeFile fullPath (photo_buffer photo) ;;
     logger_info (FollowUpSavedToFile fullPath) ;;
     ret true)
    (fun e => logger_error (FailedToSaveFollowUp e) ;; ret false) ;;
  if saved : bool then
    let cachedPhoto := cachedPhoto_of photo user baseName in
    cache_in_memory cachedPhoto user ;;
    logger_info (FollowUpCached user (timestamp cachedPhoto)) ;;
    uploadToFirebase cachedPhoto
  else ret tt.

Definition cachePhoto (photo : PhotoData) (user : string)
    (session : option AppSession) : M unit :=
  d <- timestamp_or_now photo ;;
  ts <- safeTimestamp d ;;
  let baseName := baseName photo ts in
  let fullPath := fullPath photo ts in
  try_catch
    (fs_writeFile fullPath (photo_buffer photo) ;;
     logger_info (PhotoSavedToFile fullPath) ;;
     match session with
     | Some session =>
         try_catch
           (logger_info (TakingFollowUp user) ;;
            nextPhoto <- camera_requestPhoto session ;;
            logger_info (FollowUpTaken user (photo_timestamp nextPhoto)) ;;
            savePhotoOnly nextPhoto user)
           (fun error => logger_error (ErrorTakingFollowUp error))
     | None => ret tt
     end)
    (fun e => logger_error (FailedToSavePhoto e)) ;;
  let cachedPhoto := cachedPhoto_of photo user baseName in
  cache_in_memory cachedPhoto user ;;
  logger_info (PhotoCached user (timestamp cachedPhoto)) ;;
  uploadToFirebase cachedPhoto.

(** A flag read from a map is truthy when it is there and [true]. *)
Definition truthy (flag : option bool) : bool := default false flag.

(** [(session as any).userId ?? (session as any).user?.id ?? "unknown"] *)
Definition user_of_session (session : AppSession) : string :=
  match session_userId session with
  | Some u => u
  | None => default "unknown" (session_user_id session)
  end.

(** The handler [onSession] passes to [session.events.onButtonPress]. *)
Definition onButtonPress (user : string) (session : AppSession)
    (button : Button) : M unit :=
  logger_info (ButtonPressed button) ;;
  if String.eqb (pressType button) "long" then
    flag <- gets (fun w => isStreamingPhotos w !! user) ;;
    modify (set_isStreamingPhotos (insert user (negb (truthy flag)))) ;;
    flag <- gets (fun w => isStreamingPhotos w !! user) ;;
    logger_info (StreamingIsNow user flag)
  else
    layouts_showTextWall "Taking photo…" 4000 ;;
    try_catch
      (photo <- camera_requestPhoto session ;;
       logger_info (PhotoTaken user (photo_timestamp photo)) ;;
       cachePhoto photo user (Some session))
      (fun error => logger_error (ErrorTakingPhoto error)).

(** The condition of the auto-stream loop; the clock is read only when
    the flag is truthy. *)
Definition autoStreamDue (user : string) : M bool :=
  flag <- gets (fun w => isStreamingPhotos w !! user) ;;
  if truthy flag then
    now <- Date_now ;;
    next <- gets (fun w => nextPhotoTime w !! user) ;;
    ret (default 0 next <? now)
  else ret false.

(** The callback [onSession] passes to [setInterval]. *)
Definition autoStream (user : string) (session : AppSession) : M unit :=
  due <- autoStreamDue user ;;
  if due : bool then
    logger_info (AutoStreamTriggered user) ;;
    try_catch
      (now <- Date_now ;;
       modify (set_nextPhotoTime (insert user (now + 30000))) ;;
       logger_info (AutoStreamRequesting user) ;;
       photo <- camera_requestPhoto session ;;
       logger_info (AutoStreamCaptured user (photo_timestamp photo)) ;;
       now <- Date_now ;;
       modify (set_nextPhotoTime (insert user now)) ;;
       logger_info AutoStreamAboutToCache ;;
       cachePhoto photo user (Some session) ;;
       logger_info AutoStreamCacheCompleted)
      (fun error => logger_error (ErrorAutoTakingPhoto error))
  else ret tt.

(** What [onSession] registers with the host: the button handler, and
    the callback and period given to [setInterval]. *)
Record Subscriptions := {
  buttonPressHandler : Button → M unit;
  intervalCallback : M unit;
  intervalMs : Z
}.

Definition onSession (session : AppSession) : M Subscriptions :=
  let sessionId := default "unknown" (sessionId session) in
  let user := user_of_session session in
  logger_info (SessionStarted sessionId user) ;;
  modify (set_isStreamingPhotos (insert user false)) ;;
  now <- Date_now ;;
  modify (set_nextPhotoTime (insert user now)) ;;
  modify (set_sessionMap (insert user session)) ;;
  ret {| buttonPressHandler := onButtonPress user session;
         intervalCallback := autoStream user session;
         intervalMs := 1000 |}.

Definition onStop : M unit :=
  logger_info SessionStopped ;;
  modify (set_isStreamingPhotos (fun _ => ∅)) ;;
  modify (set_nextPhotoTime (fun _ => ∅)) ;;
  modify (set_sessionMap (fun _ => ∅)).

(** *** The routes *)

(** A request: the [authUserId] the host framework injected, if any, and
    the [:requestId] parameter of the path. *)
Record Request := {
  authUserId : option string;
  params_requestId : string
}.

(** An entry of the array [/api/photos] answers with. *)
Record PhotoMeta := {
  item_requestId : option string;
  item_timestamp : Number;
  item_filename : string;
  item_size : Z;
  item_mimeType : option string
}.

Inductive Payload :=
| ErrorJson (error : string)
| LatestJson (id : option string) (time : Number) (hasPhoto : bool)
| PhotosJson (items : list PhotoMeta)
| Binary (data : Buffer)
| Html (html : string)
| Redirect (location : string).

(** A response: its status, the headers the handler sets itself, and
    what it sends. *)
Record Response := {
  status : Z;
  headers : list (string * option string);
  payload : Payload
}.

(** [if (!userId)]: the id is usable when present and not empty. *)
Definition usable (id : option string) : option string :=
  match id with
  | Some u => if String.eqb u "" then None else Some u
  | None => None
  end.

Definition notAuthenticated : Response :=
  {| status := 401; headers := []; payload := ErrorJson "Not authenticated" |}.

Definition latestPhotoRoute (req : Request) : M Response :=
  match usable (authUserId req) with
  | None => ret notAuthenticated
  | Some user =>
      arr <- gets (photos_of user) ;;
      match arr with
      | [] =>
          ret {| status := 404; headers := [];
                 payload := ErrorJson "No photo available" |}
      | photo :: _ =>
          t <- method getTime (timestamp photo) ;;
          ret {| status := 200; headers := [];
                 payload := LatestJson (requestId photo) t true |}
      end
  end.

(** The callback of [list.map] in [/api/photos]. *)
Definition photoMeta (p : StoredPhoto) : M PhotoMeta :=
  t <- method getTime (timestamp p) ;;
  ret {| item_requestId := requestId p;
         item_timestamp := t;
         item_filename := filename p;
         item_size := size p;
         item_mimeType := mimeType p |}.

(** [arr.map(f)] for a callback that may throw. *)
Fixpoint map_M {A B} (f : A → M B) (arr : list A) : M (list B) :=
  match arr with
  | [] => ret []
  | a :: rest =>
      b <- f a ;;
      bs <- map_M f rest ;;
      ret (b :: bs)
  end.

Definition photosRoute (req : Request) : M Response :=
  match usable (authUserId req) with
  | None => ret notAuthenticated
  | Some user =>
      arr <- gets (photos_of user) ;;
      items <- map_M photoMeta arr ;;
      ret {| status := 200; headers := []; payload := PhotosJson items |}
  end.

(** [p.requestId === requestId] *)
Definition sameRequestId (wanted : string) (p : StoredPhoto) : bool :=
  match requestId p with
  | Some id => String.eqb id wanted
  | None => false
  end.

Definition photoRoute (req : Request) : M Response :=
  match usable (authUserId req) with
  | None => ret notAuthenticated
  | Some user =>
      arr <- gets (photos_of user) ;;
      match List.find (sameRequestId (params_requestId req)) arr with
      | None =>
          ret {| status := 404; headers := [];
                 payload := ErrorJson "Photo not found" |}
      | Some photo =>
          ret {| status := 200;
                 headers := [("Content-Type", mimeType photo);
                             ("Cache-Control", Some "no-cache")];
                 payload := Binary (buffer photo) |}
      end
  end.

Definition webviewRoute (req : Request) : M Response :=
  match usable (authUserId req) with
  | None =>
      ret {| status := 401; headers := [];
             payload := Html "<html><head><title>Not Authenticated</title></head><body><h1>Please open from MentraOS app</h1></body></html>" |}
  | Some _ =>
      let templatePath := path_join [cwd; "views"; "photo-viewer.ejs"] in
      html <- ejs_renderFile templatePath ;;
      ret {| status := 200; headers := []; payload := Html html |}
  end.

Definition rootRoute (req : Request) : M Response :=
  ret {| status := 302; headers := []; payload := Redirect "/webview" |}.

(** The routes [setupWebviewRoutes] installs: [/api/latest-photo],
    [/api/photos], [/api/photo/:requestId], [/webview] and [/]. *)
Inductive Route :=
| LatestPhoto
| Photos
| Photo
| Webview
| Root.

Definition setupWebviewRoutes (r : Route) : Request → M Response :=
  match r with
  | LatestPhoto => latestPhotoRoute
  | Photos => photosRoute
  | Photo => photoRoute
  | Webview => webviewRoute
  | Root => rootRoute
  end.

(** *** Runs *)

(** What can happen to the running application. *)
Inductive Event :=
| SessionOpens (session : AppSession)
| ButtonPress (session : AppSession) (button : Button)
| IntervalFires (session : AppSession)
| Stops
| Get (route : Route) (req : Request)
| CachePhoto (photo : PhotoData) (user : string) (session : option AppSession)
| SavePhotoOnly (photo : PhotoData) (user : string).

Definition react (e : Event) : M unit :=
  match e with
  | SessionOpens session => onSession session ;; ret tt
  | ButtonPress session button =>
      onButtonPress (user_of_session session) session button
  | IntervalFires session => autoStream (user_of_session session) session
  | Stops => onStop
  | Get route req => setupWebviewRoutes route req ;; ret tt
  | CachePhoto photo user session => cachePhoto photo user session
  | SavePhotoOnly photo user => savePhotoOnly photo user
  end.

(** The events in turn; one that throws leaves the state it reached. *)
Definition run (events : list Event) (w : World) : World :=
  fold_left (fun w e => exec (react e) w) events w.

(** The application as its constructor leaves it, on a host with the
    given files, stored objects and answers. *)
Definition fresh (files : gmap string Buffer)
    (objects : gmap string BucketObject) (answers : nat → Answer) : World :=
  {| photos := ∅; latestPhotoTimestamp := ∅; isStreamingPhotos := ∅;
     nextPhotoTime := ∅; sessionMap := ∅; disk := files; bucket := objects;
     history := []; oracle := answers; asked := 0%nat |}.

Definition boot (files : gmap string Buffer)
    (objects : gmap string BucketObject) (answers : nat → Answer) : World :=
  exec ensureSnapshotsDirExists (fresh files objects answers).

End Application.

(** ** The earlier revision of the file

    Its helpers ([extFromMime], [safeTimestamp], [SNAPSHOTS_DIR]) are the
    same text as above; its [cachePhoto] takes no session, asks for no
    follow-up photo and uploads nothing. *)
Module Original.

(** The lines from [const list = this.photos.get(userId) ?? []] to
    [this.latestPhotoTimestamp.set(...)] of this revision. *)
Definition cache_in_memory (cachedPhoto : StoredPhoto) (userId : string)
    : M unit :=
  arr <- gets (fun w => match photos w !! userId with
                        | Some arr => arr
                        | None => []
                        end) ;;
  let arr := cachedPhoto :: arr in
  let arr := if (50 <? length arr)%nat then firstn 50 arr else arr in
  modify (set_photos (insert userId arr)) ;;
  match timestamp cachedPhoto with
  | Some d => modify (set_latestPhotoTimestamp (insert userId (getTime d)))
  | None => throw TypeError
  end.

Definition cachePhoto (cwd : string) (photo : PhotoData) (userId : string)
    : M unit :=
  let ext := extFromMime (photo_mimeType photo) in
  d <- match photo_timestamp photo with
       | Some d => ret d
       | None => new_Date
       end ;;
  ts <- safeTimestamp d ;;
  let baseName :=
    "photo_" ++ ts ++ "_" ++ default "unknown" (photo_requestId photo) ++ ext in
  let fullPath := path_join [SNAPSHOTS_DIR cwd; baseName] in
  try_catch
    (fs_writeFile fullPath (photo_buffer photo) ;;
     logger_info (PhotoSavedToFile fullPath))
    (fun e => logger_error (FailedToSavePhoto e)) ;;
  let cachedPhoto :=
    {| requestId := photo_requestId photo;
       buffer := photo_buffer photo;
       timestamp := photo_timestamp photo;
       userId := userId;
       mimeType := photo_mimeType photo;
       filename := baseName;
       size := photo_size photo |} in
  cache_in_memory cachedPhoto userId ;;
  logger_info (PhotoCached userId (timestamp cachedPhoto)).

End Original.

(** ** Notions the statements use *)

(** A name that can be one segment of a path. *)
Definition no_slash (s : string) : Prop := occurs "/" s = false.

(** A segment that [path.normalize] keeps as it is: a name without
    ["/"] that is not empty, ["."] or [".."]. *)
Definition plain (seg : string) : Prop :=
  occurs "/" seg = false
  ∧ String.eqb seg "" || String.eqb seg "." || String.eqb seg ".." = false.

(** A stack of segments (the last first) as [normalize_segments] leaves
    it: names, and below them, in a relative path only, [".."]s. *)
Definition normal (allowAboveRoot : bool) (stack : list string) : Prop :=
  ∃ names ups,
    stack = (names ++ ups)%list
    ∧ Forall plain names
    ∧ Forall (fun seg => seg = "..") ups
    ∧ (allowAboveRoot = false → ups = []).

(** The answer the host gives to the next call. *)
Definition next_answer (w : World) : Answer := oracle w (asked w).

(** The date a photo is filed under when it arrives in [w]: its own
    timestamp, or else the reading of the clock. *)
Definition filing_date (photo : PhotoData) (w : World) : Date :=
  default (DateAt (clock (next_answer w))) (photo_timestamp photo).

(** The time value of that date; a photo whose timestamp is an Invalid
    Date has none, and cannot be filed. *)
Definition filing_time (photo : PhotoData) (w : World) : option TimeValue :=
  match filing_date photo w with
  | DateAt t => Some t
  | InvalidDate => None
  end.

(** The safe timestamp of a time value: what [safeTimestamp] returns for
    the date that holds it. *)
Definition safe (t : TimeValue) : string :=
  map_chars colon_to_hyphen (isoString (ms t)).

(** The answer to the [fs.writeFile] of [cachePhoto] and [savePhotoOnly]
    started in [w]: the clock is asked first when the photo has no
    timestamp. *)
Definition write_answer (photo : PhotoData) (w : World) : Answer :=
  match photo_timestamp photo with
  | Some _ => oracle w (asked w)
  | None => oracle w (S (asked w))
  end.

(** The record [cachePhoto] and [savePhotoOnly] make of a photo filed at
    the time [t], and of a photo that arrives in [w] (none, if it cannot
    be filed). *)
Definition record_at (photo : PhotoData) (user : string) (t : TimeValue)
    : StoredPhoto :=
  cachedPhoto_of photo user (baseName photo (safe t)).

Definition record_of (photo : PhotoData) (user : string) (w : World)
    : option StoredPhoto :=
  match filing_time photo w with
  | Some t => Some (record_at photo user t)
  | None => None
  end.


(** Every list of the cache holds at most fifty records. *)
Definition capped (w : World) : Prop :=
  ∀ user, (length (photos_of user w) ≤ 50)%nat.

(** Every record is filed under the user it names. *)
Definition owned (w : World) : Prop :=
  ∀ user p, In p (photos_of user w) → userId p = user.

(** Every object of the external store sits under the key of a record
    whose file it was read from. *)
Definition store_keyed (cwd : string) (w : World) : Prop :=
  ∀ key obj, bucket w !! key = Some obj →
    ∃ p : StoredPhoto,
      key = "sessions/" ++ userId p ++ "/images/" ++ filename p
      ∧ source obj = path_join [SNAPSHOTS_DIR cwd; filename p]
      ∧ meta_userId (metadata obj) = userId p.

(** From [w] to [w'] the history grew, and grew by the call [c] among
    others. *)
Definition extends : World → World → Prop :=
  fun w w' => ∃ new, history w' = (new ++ history w)%list.

Definition issues (c : HostCall) : World → World → Prop :=
  fun w w' => ∃ new, history w' = (new ++ history w)%list ∧ In c new.











(** A computation that always returns. *)
Definition returns {A} (m : M A) : Prop :=
  ∀ w, ∃ a, completion m w = Returned a.

(** The relation of a state to the states an invariant [I] survives in,
    and to the states a component [f] is unchanged in. *)
Definition preserving (I : World → Prop) : World → World → Prop :=
  fun w w' => I w → I w'.

Definition same {X} (f : World → X) : World → World → Prop :=
  fun w w' => f w' = f w.

(** A computation along which the state moves by [R] only. *)
Definition along (R : World → World → Prop) {A} (m : M A) : Prop :=
  ∀ w, R w (exec m w).

(** From [w] to [w'] the cache changed, if at all, by one record put at
    the head of the list of [user]. *)
Definition one_more (user : string) : World → World → Prop :=
  fun w w' =>
    photos w' = photos w
    ∨ ∃ p, photos w' = <[user := unshift_capped p (photos_of user w)]> (photos w).

(** An entry of [/api/photos] describes the record [p]. *)
Definition describes (p : StoredPhoto) (item : PhotoMeta) : Prop :=
  item_requestId item = requestId p
  ∧ (∃ d, timestamp p = Some d ∧ item_timestamp item = getTime d)
  ∧ item_filename item = filename p
  ∧ item_size item = size p
  ∧ item_mimeType item = mimeType p.


(** Is the auto-stream loop of [user] due in [w]? *)
Definition due (user : string) (w : World) : bool :=
  truthy (isStreamingPhotos w !! user)
  && (default 0 (nextPhotoTime w !! user) <? ms (clock (next_answer w))).

(** ** Sample values *)

Definition sample_photo (id : string) (t : Z) : PhotoData :=
  {| photo_requestId := Some id;
     photo_buffer := [Byte.x01; Byte.x02];
     photo_timestamp := Some (Date_from t);
     photo_mimeType := Some "image/jpeg";
     photo_size := 2 |}.

(** A photo whose timestamp is an Invalid Date. *)
Definition misdated_photo (id : string) : PhotoData :=
  {| photo_requestId := Some id;
     photo_buffer := [Byte.x03];
     photo_timestamp := Some InvalidDate;
     photo_mimeType := Some "image/png";
     photo_size := 1 |}.

Definition one_second : TimeValue := {| ms := 1000; ms_in_range := eq_refl |}.
Definition two_seconds : TimeValue := {| ms := 2000; ms_in_range := eq_refl |}.
Definition nine_seconds : TimeValue := {| ms := 9000; ms_in_range := eq_refl |}.

Definition sample_session : AppSession :=
  {| sessionId := Some "s1";
     session_userId := Some "alice";
     session_user_id := None |}.

(** A host that accepts every call, and one that rejects every call. *)
Definition willing : nat → Answer :=
  fun _ => {| ok := true; shot := sample_photo "next" 5000;
              clock := nine_seconds; page := "<html></html>" |}.

Definition failing : nat → Answer :=
  fun _ => {| ok := false; shot := sample_photo "next" 5000;
              clock := nine_seconds; page := "" |}.

(** A host that accepts every call and whose camera delivers photos with
    an Invalid Date for timestamp. *)
Definition misdating : nat → Answer :=
  fun _ => {| ok := true; shot := misdated_photo "bad";
              clock := nine_seconds; page := "<html></html>" |}.


Definition alice_asks (id : string) : Request :=
  {| authUserId := Some "alice"; params_requestId := id |}.

(** ** The session handlers of the earlier revision

    [onSession], its two callbacks and [onStop] as the earlier revision
    has them: no session map, no debug messages, and [cachePhoto] called
    without a session. *)
Module OriginalApp.

Definition onButtonPress (cwd : string) (userId : string)
    (session : AppSession) (button : Button) : M unit :=
  logger_info (ButtonPressed button) ;;
  if String.eqb (pressType button) "long" then
    flag <- gets (fun w => isStreamingPhotos w !! userId) ;;
    modify (set_isStreamingPhotos (insert userId (negb (truthy flag)))) ;;
    flag <- gets (fun w => isStreamingPhotos w !! userId) ;;
    logger_info (StreamingIsNow userId flag)
  else
    layouts_showTextWall "Taking photo…" 4000 ;;
    try_catch
      (photo <- camera_requestPhoto session ;;
       logger_info (PhotoTaken userId (photo_timestamp photo)) ;;
       Original.cachePhoto cwd photo userId)
      (fun error => logger_error (ErrorTakingPhoto error)).

Definition autoStream (cwd : string) (userId : string)
    (session : AppSession) : M unit :=
  flag <- gets (fun w => isStreamingPhotos w !! userId) ;;
  due <- (if truthy flag then
            now <- Date_now ;;
            next <- gets (fun w => nextPhotoTime w !! userId) ;;
            ret (default 0 next <? now)
          else ret false) ;;
  if due : bool then
    try_catch
      (now <- Date_now ;;
       modify (set_nextPhotoTime (insert userId (now + 30000))) ;;
       photo <- camera_requestPhoto session ;;
       now <- Date_now ;;
       modify (set_nextPhotoTime (insert userId now)) ;;
       Original.cachePhoto cwd photo userId)
      (fun error => logger_error (ErrorAutoTakingPhoto error))
  else ret tt.

Definition onSession (cwd : string) (session : AppSession)
    : M Subscriptions :=
  let sessionId := default "unknown" (sessionId session) in
  let userId := user_of_session session in
  logger_info (SessionStarted sessionId userId) ;;
  modify (set_isStreamingPhotos (insert userId false)) ;;
  now <- Date_now ;;
  modify (set_nextPhotoTime (insert userId now)) ;;
  ret {| buttonPressHandler := onButtonPress cwd userId session;
         intervalCallback := autoStream cwd userId session;
         intervalMs := 1000 |}.

Definition onStop : M unit :=
  logger_info SessionStopped ;;
  modify (set_isStreamingPhotos (fun _ => ∅)) ;;
  modify (set_nextPhotoTime (fun _ => ∅)).

End OriginalApp.

(** ** Further notions *)

(** The user an event can cache photos for. *)
Definition subject (e : Event) : option string :=
  match e with
  | ButtonPress session _ | IntervalFires session =>
      Some (user_of_session session)
  | CachePhoto _ user _ | SavePhotoOnly _ user => Some user
  | SessionOpens _ | Stops | Get _ _ => None
  end.

(** The number of photos asked of the camera in a stretch of history. *)
Definition is_request (c : HostCall) : bool :=
  match c with
  | RequestPhoto _ => true
  | _ => false
  end.

Definition camera_requests (h : list HostCall) : nat :=
  length (List.filter is_request h).

Definition is_upload (c : HostCall) : bool :=
  match c with
  | Upload _ _ _ => true
  | _ => false
  end.

(** The latest-photo timestamp of a user is that of the record at the
    head of the user's list, and is there only when the list is not
    empty. *)
Definition latest_agrees (w : World) : Prop :=
  ∀ user,
    (∀ p rest t, photos_of user w = p :: rest → timestamp p = Some t →
                 latestPhotoTimestamp w !! user = Some (getTime t))
    ∧ (∀ t, latestPhotoTimestamp w !! user = Some t → photos_of user w ≠ []).

(** The [filename] of a record is the name generated from its own
    request id, MIME type and timestamp. *)
Definition named_after_itself (p : StoredPhoto) : Prop :=
  ∃ t,
    filename p
    = "photo_" ++ safe t ++ "_" ++ default "unknown" (requestId p)
        ++ extFromMime (mimeType p)
    ∧ ∀ d, timestamp p = Some d → d = DateAt t.

Definition well_named (w : World) : Prop :=
  ∀ user p, In p (photos_of user w) → named_after_itself p.

(** The photo an event hands to the application itself. *)
Definition event_photo (e : Event) : option PhotoData :=
  match e with
  | CachePhoto photo _ _ | SavePhotoOnly photo _ => Some photo
  | SessionOpens _ | ButtonPress _ _ | IntervalFires _ | Stops | Get _ _ =>
      None
  end.

(** The photos a run can come by: those its events hand over, and those
    the camera of the host delivers. *)
Definition handed_over (events : list Event) (answers : nat → Answer)
    (photo : PhotoData) : Prop :=
  (∃ e, In e events ∧ event_photo e = Some photo)
  ∨ ∃ n, photo = shot (answers n).

(** Every file is the snapshot of a photo from [source]: it holds the
    bytes of the photo, at the path generated for the photo and for the
    time of its timestamp, if it has one. *)
Definition files_from (source : PhotoData → Prop) (cwd : string)
    (w : World) : Prop :=
  ∀ path data, disk w !! path = Some data →
    ∃ photo t,
      source photo
      ∧ data = photo_buffer photo
      ∧ path = fullPath cwd photo (safe t)
      ∧ ∀ d, photo_timestamp photo = Some d → d = DateAt t.

(** The same on a host whose answers are [answers]. *)
Definition files_of_run (source : PhotoData → Prop) (cwd : string)
    (answers : nat → Answer) (w : World) : Prop :=
  oracle w = answers ∧ files_from source cwd w.

(** The components of the state a request may read. *)
Definition stored (w : World) :=
  (photos w, latestPhotoTimestamp w, isStreamingPhotos w, nextPhotoTime w,
   sessionMap w, disk w, bucket w).

(** From [w] to [w'] the list and the latest-photo timestamp of [user]
    are the same. *)
Definition untouched (user : string) : World → World → Prop :=
  fun w w' =>
    photos w' !! user = photos w !! user
    ∧ latestPhotoTimestamp w' !! user = latestPhotoTimestamp w !! user.

(** From [w] to [w'] the history grew by calls of which at most [n] ask
    the camera for a photo, and by calls that all satisfy [P]. *)
Definition asks_at_most (n : nat) : World → World → Prop :=
  fun w w' =>
    ∃ new, history w' = (new ++ history w)%list ∧ (camera_requests new ≤ n)%nat.

Definition adding (P : HostCall → bool) : World → World → Prop :=
  fun w w' =>
    ∃ new, history w' = (new ++ history w)%list ∧ forallb P new = true.

Definition no_upload (c : HostCall) : bool := negb (is_upload c).

Definition sample_press (kind : string) : Button :=
  {| buttonId := "main"; pressType := kind |}.

(** * Properties *)

(** ** Computations in the monad *)

Lemma exec_bind_returned {A B} (m : M A) (k : A → M B) w a :
  completion m w = Returned a → exec (bind m k) w = exec (k a) (exec m w).
Proof.
  unfold completion, exec, bind. destruct (m w) as [w' o]; simpl.
  intros ->. reflexivity.
Qed.

Lemma completion_bind_returned {A B} (m : M A) (k : A → M B) w a :
  completion m w = Returned a →
  completion (bind m k) w = completion (k a) (exec m w).
Proof.
  unfold completion, exec, bind. destruct (m w) as [w' o]; simpl.
  intros ->. reflexivity.
Qed.

Lemma completion_bind_thrown {A B} (m : M A) (k : A → M B) w e :
  completion m w = Thrown e → completion (bind m k) w = Thrown e.
Proof.
  unfold completion, exec, bind. destruct (m w) as [w' o]; simpl.
  intros ->. reflexivity.
Qed.

Lemma completion_try_thrown {A} (m : M A) (h : Exn → M A) w e :
  completion m w = Thrown e →
  completion (try_catch m h) w = completion (h e) (exec m w).
Proof.
  unfold completion, exec, try_catch. destruct (m w) as [w' o]; simpl.
  intros ->. reflexivity.
Qed.

(** *** Computations that always return *)

Lemma returns_ret {A} (a : A) : returns (ret a).
Proof. intros w. exists a. reflexivity. Qed.

Lemma returns_gets {A} (f : World → A) : returns (gets f).
Proof. intros w. exists (f w). reflexivity. Qed.

Lemma returns_modify f : returns (modify f).
Proof. intros w. exists tt. reflexivity. Qed.

Lemma returns_ask : returns ask.
Proof. intros w. eexists. reflexivity. Qed.

Lemma returns_bind {A B} (m : M A) (k : A → M B) :
  returns m → (∀ a, returns (k a)) → returns (bind m k).
Proof.
  intros Hm Hk w. destruct (Hm w) as [a Ha].
  rewrite (completion_bind_returned _ _ _ _ Ha). apply Hk.
Qed.

(** A [try] whose handler always returns always returns, whatever its
    body does. *)
Lemma returns_try {A} (m : M A) (h : Exn → M A) :
  (∀ e, returns (h e)) → returns (try_catch m h).
Proof.
  intros Hh w. destruct (completion m w) as [a|e] eqn:E.
  - exists a. unfold completion, try_catch in *.
    destruct (m w) as [w' o]; simpl in *. subst. reflexivity.
  - rewrite (completion_try_thrown _ _ _ _ E). apply Hh.
Qed.

Lemma returns_unit (m : M unit) w : returns m → completion m w = Returned tt.
Proof. intros H. destruct (H w) as [[] Ha]. exact Ha. Qed.

Lemma returns_call c : returns (call c).
Proof. apply returns_modify. Qed.

Lemma returns_timestamp_or_now photo : returns (timestamp_or_now photo).
Proof.
  unfold timestamp_or_now, new_Date. destruct (photo_timestamp photo).
  - apply returns_ret.
  - apply returns_bind; [apply returns_ask | intros; apply returns_ret].
Qed.

Create HintDb returns_db.
#[local] Hint Resolve returns_ret returns_gets returns_modify returns_ask
  returns_call returns_timestamp_or_now : returns_db.

Ltac returns_step :=
  first
    [ apply returns_try; intros ?
    | apply returns_bind; [ | intros ? ]
    | solve [ auto with returns_db ]
    | match goal with
      | |- returns (if ?b then _ else _) => destruct b
      | |- returns (match ?x with _ => _ end) => destruct x
      end ].

Ltac returns_all := repeat returns_step.

(** *** Computations along a relation *)

Section Along.

Context (R : World → World → Prop) `{!PreOrder R}.

Lemma along_ret {A} (a : A) : along R (ret a).
Proof. intros w. unfold exec; simpl. reflexivity. Qed.

Lemma along_throw {A} e : along R (@throw A e).
Proof. intros w. unfold exec; simpl. reflexivity. Qed.

Lemma along_gets {A} (f : World → A) : along R (gets f).
Proof. intros w. unfold exec; simpl. reflexivity. Qed.

Lemma along_modify f : (∀ w, R w (f w)) → along R (modify f).
Proof. intros H w. apply H. Qed.

Lemma along_ask : (∀ w, R w (consume w)) → along R ask.
Proof. intros H w. apply H. Qed.

Lemma along_bind {A B} (m : M A) (k : A → M B) :
  along R m → (∀ a, along R (k a)) → along R (bind m k).
Proof.
  intros Hm Hk w. specialize (Hm w). unfold exec, bind in *.
  destruct (m w) as [w' [a|e]]; simpl in *; [ | exact Hm ].
  etransitivity; [ exact Hm | apply Hk ].
Qed.

Lemma along_try {A} (m : M A) (h : Exn → M A) :
  along R m → (∀ e, along R (h e)) → along R (try_catch m h).
Proof.
  intros Hm Hh w. specialize (Hm w). unfold exec, try_catch in *.
  destruct (m w) as [w' [a|e]]; simpl in *; [ exact Hm | ].
  etransitivity; [ exact Hm | apply Hh ].
Qed.

Lemma along_map_M {A B} (f : A → M B) (arr : list A) :
  (∀ a, along R (f a)) → along R (map_M f arr).
Proof.
  intros Hf. induction arr as [|a rest IH]; simpl.
  - apply along_ret.
  - apply along_bind; [ apply Hf | intros b ].
    apply along_bind; [ exact IH | intros bs; apply along_ret ].
Qed.

End Along.

(** The state moves along [R] through a whole computation when it does
    so through the steps that touch the state. *)
Ltac along_step :=
  match goal with
  | |- along _ (ret _) => apply along_ret; typeclasses eauto
  | |- along _ (throw _) => apply along_throw; typeclasses eauto
  | |- along _ (gets _) => apply along_gets; typeclasses eauto
  | |- along _ (try_catch _ _) =>
      apply along_try; [ typeclasses eauto .. | | intros ? ]
  | |- along _ (bind _ _) =>
      apply along_bind; [ typeclasses eauto .. | | intros ? ]
  | |- along _ (map_M _ _) =>
      apply along_map_M; [ typeclasses eauto .. | intros ? ]
  | |- along _ (if ?b then _ else _) => destruct b
  | |- along _ (match ?x with _ => _ end) => destruct x
  end.

(** Every definition of the application, down to the steps on the state. *)
Ltac open_handlers :=
  unfold react, onSession, onButtonPress, autoStream, autoStreamDue, onStop,
    setupWebviewRoutes, latestPhotoRoute, photosRoute, photoRoute,
    webviewRoute, rootRoute, photoMeta, cachePhoto, savePhotoOnly,
    ensureSnapshotsDirExists, timestamp_or_now, safeTimestamp, toISOString.

Ltac open_host :=
  unfold fs_writeFile, fs_mkdir, camera_requestPhoto, bucket_upload,
    ejs_renderFile, layouts_showTextWall, logger_info, logger_warn,
    logger_error, reject, Date_now, new_Date, method, throwing_method,
    toISOString, call.

Ltac open_all := open_handlers; unfold uploadToFirebase; open_host.

(** Every service of the host but the camera, laid open. *)
Ltac open_services :=
  unfold fs_writeFile, fs_mkdir, bucket_upload, ejs_renderFile,
    layouts_showTextWall, logger_info, logger_warn, logger_error, Date_now,
    new_Date, method, throwing_method, toISOString, reject, call.

(** ** C1: the cache is capped *)

Lemma unshift_capped_length p arr :
  (length (unshift_capped p arr) ≤ 50)%nat.
Proof.
  unfold unshift_capped. destruct (Nat.ltb_spec 50 (length (p :: arr))).
  - rewrite length_take. lia.
  - lia.
Qed.

Lemma photos_of_insert user arr w u :
  photos_of u (set_photos (insert user arr) w)
  = if decide (user = u) then arr else photos_of u w.
Proof.
  unfold photos_of; simpl. rewrite lookup_insert.
  destruct (decide (user = u)); reflexivity.
Qed.

#[local] Instance preserving_preorder (I : World → Prop) :
  PreOrder (preserving I).
Proof.
  split; [ intros w H; exact H | intros a b c H1 H2 H; apply H2, H1, H ].
Qed.

#[local] Instance same_preorder {X} (f : World → X) : PreOrder (same f).
Proof.
  split; [ intros w; reflexivity | intros a b c H1 H2 ].
  unfold same in *. congruence.
Qed.

Lemma cache_in_memory_capped p user :
  along (preserving capped) (cache_in_memory p user).
Proof.
  unfold cache_in_memory, method. repeat along_step.
  - apply along_modify. intros w H u. rewrite photos_of_insert.
    destruct (decide (user = u)); [ apply unshift_capped_length | apply H ].
  - apply along_modify. intros w H. exact H.
Qed.

Lemma react_capped cwd e : along (preserving capped) (react cwd e).
Proof.
  destruct e; try (match goal with r : Route |- _ => destruct r end);
    open_all;
    repeat first
      [ along_step
      | apply cache_in_memory_capped
      | apply along_ask; intros w H; exact H
      | apply along_modify; intros w H; exact H ].
Qed.

Lemma run_capped cwd events w : capped w → capped (run cwd events w).
Proof.
  revert w. induction events as [|e rest IH]; intros w H; simpl.
  - exact H.
  - apply IH. apply (react_capped cwd e w H).
Qed.

Lemma boot_photos cwd files objects answers :
  photos (boot cwd files objects answers) = ∅.
Proof.
  unfold boot, exec, ensureSnapshotsDirExists, try_catch, fs_mkdir, bind,
    call, modify, ask, reject, logger_info, logger_warn; simpl.
  destruct (ok (answers 0%nat)); reflexivity.
Qed.

Lemma boot_capped cwd files objects answers :
  capped (boot cwd files objects answers).
Proof.
  intros u. unfold photos_of. rewrite boot_photos, lookup_empty. simpl. lia.
Qed.

(** C1.  After the application has booted and any sequence of events has
    happened to it (calls of [cachePhoto] and [savePhotoOnly] among them,
    with whatever the host answers), the list the cache holds for any
    user has at most 50 entries. *)
Theorem cache_never_exceeds_50 cwd files objects answers events user :
  (length (photos_of user (run cwd events (boot cwd files objects answers)))
   ≤ 50)%nat.
Proof. apply run_capped, boot_capped. Qed.

(** ** C2: the newest record comes first *)

(** A part of the state that no step of a computation writes to is the
    same after it. *)
Ltac frame :=
  open_all;
  repeat first
    [ along_step
    | apply along_modify; intros ?; reflexivity
    | apply along_ask; intros ?; reflexivity ].

Lemma same_after_bind {X A B} (f : World → X) (m : M A) (k : A → M B) w :
  (∀ a, along (same f) (k a)) → f (exec (bind m k) w) = f (exec m w).
Proof.
  intros Hk. unfold exec, bind.
  destruct (m w) as [w' [a|e]]; simpl; [ apply Hk | reflexivity ].
Qed.

(** Composition of two relations along a sequence and along a [try]. *)
Lemma along_bind_comp {A B} (R1 R2 R : World → World → Prop)
    (m : M A) (k : A → M B) :
  along R1 m → (∀ a, along R2 (k a)) →
  (∀ a b, R1 a b → R a b) → (∀ a b c, R1 a b → R2 b c → R a c) →
  along R (bind m k).
Proof.
  intros Hm Hk H1 H12 w. specialize (Hm w). unfold exec, bind in *.
  destruct (m w) as [w' [a|e]]; simpl in *; [ | apply H1, Hm ].
  eapply H12; [ exact Hm | apply Hk ].
Qed.

Lemma along_try_comp {A} (R1 R2 R : World → World → Prop)
    (m : M A) (h : Exn → M A) :
  along R1 m → (∀ e, along R2 (h e)) →
  (∀ a b, R1 a b → R a b) → (∀ a b c, R1 a b → R2 b c → R a c) →
  along R (try_catch m h).
Proof.
  intros Hm Hh H1 H12 w. specialize (Hm w). unfold exec, try_catch in *.
  destruct (m w) as [w' [a|e]]; simpl in *; [ apply H1, Hm | ].
  eapply H12; [ exact Hm | apply Hh ].
Qed.

Lemma completion_timestamp_or_now photo w :
  completion (timestamp_or_now photo) w = Returned (filing_date photo w).
Proof.
  unfold timestamp_or_now, filing_date.
  destruct (photo_timestamp photo); reflexivity.
Qed.

Lemma timestamp_or_now_photos photo :
  along (same photos) (timestamp_or_now photo).
Proof. frame. Qed.

Lemma uploadToFirebase_photos cwd p :
  along (same photos) (uploadToFirebase cwd p).
Proof. frame. Qed.

Lemma cache_in_memory_photos p user w :
  photos (exec (cache_in_memory p user) w)
  = <[user := unshift_capped p (photos_of user w)]> (photos w).
Proof.
  unfold cache_in_memory, method, exec, bind, gets, modify, ret, throw.
  destruct (timestamp p); reflexivity.
Qed.

Lemma one_more_refl user w : one_more user w w.
Proof. left. reflexivity. Qed.

Lemma one_more_same_l user a b c :
  same photos a b → one_more user b c → one_more user a c.
Proof.
  unfold same, one_more, photos_of. intros E [H|[p H]]; rewrite H, E; eauto.
Qed.

Lemma one_more_same_r user a b c :
  one_more user a b → same photos b c → one_more user a c.
Proof.
  unfold same, one_more. intros [H|[p H]] E; rewrite E, H; eauto.
Qed.

Lemma photos_of_same user w w' :
  photos w' = photos w → photos_of user w' = photos_of user w.
Proof. unfold photos_of. intros ->. reflexivity. Qed.

(** The guarded write of [savePhotoOnly] returns whether the host took
    the file. *)
Lemma guarded_write_completion path data (m1 : LogMsg) (m2 : Exn → LogMsg) w :
  completion
    (try_catch
       (fs_writeFile path data ;; logger_info m1 ;; ret true)
       (fun e => logger_error (m2 e) ;; ret false)) w
  = Returned (ok (next_answer w)).
Proof.
  unfold completion, try_catch, fs_writeFile, bind, call, modify, ask,
    reject, throw, logger_info, logger_error, ret, next_answer; simpl.
  destruct (ok (oracle w (asked w))); reflexivity.
Qed.

Lemma guarded_write_photos path data (m1 : LogMsg) (m2 : Exn → LogMsg) :
  along (same photos)
    (try_catch
       (fs_writeFile path data ;; logger_info m1 ;; ret true)
       (fun e => logger_error (m2 e) ;; ret false)).
Proof. frame. Qed.

Lemma next_answer_after_timestamp photo w :
  next_answer (exec (timestamp_or_now photo) w) = write_answer photo w.
Proof.
  unfold timestamp_or_now, write_answer, next_answer.
  destruct (photo_timestamp photo); reflexivity.
Qed.

(** [safeTimestamp] hands on the safe timestamp of a date that holds a
    time value, and throws on an Invalid Date. *)
Lemma safeTimestamp_at {B} t (k : string → M B) :
  bind (safeTimestamp (DateAt t)) k = k (safe t).
Proof. reflexivity. Qed.

Lemma safeTimestamp_invalid {B} (k : string → M B) :
  bind (safeTimestamp InvalidDate) k = throw RangeError.
Proof. reflexivity. Qed.

Lemma filing_time_some photo w t :
  filing_time photo w = Some t → filing_date photo w = DateAt t.
Proof.
  unfold filing_time. destruct (filing_date photo w); congruence.
Qed.

(** Only a timestamp that is an Invalid Date keeps a photo from being
    filed. *)
Lemma filing_time_none photo w :
  filing_time photo w = None ↔ photo_timestamp photo = Some InvalidDate.
Proof.
  unfold filing_time, filing_date.
  destruct (photo_timestamp photo) as [[t|]|]; simpl; split; congruence.
Qed.

(** A photo that cannot be filed makes [savePhotoOnly] and [cachePhoto]
    throw at once: nothing has happened by then. *)
Lemma savePhotoOnly_unfiled cwd photo user w :
  filing_time photo w = None →
  savePhotoOnly cwd photo user w = (w, Thrown RangeError).
Proof.
  intros H. apply filing_time_none in H.
  unfold savePhotoOnly, timestamp_or_now. rewrite H. reflexivity.
Qed.

Lemma cachePhoto_unfiled cwd photo user session w :
  filing_time photo w = None →
  cachePhoto cwd photo user session w = (w, Thrown RangeError).
Proof.
  intros H. apply filing_time_none in H.
  unfold cachePhoto, timestamp_or_now. rewrite H. reflexivity.
Qed.

(** What [savePhotoOnly] does to the cache: nothing if the write failed,
    and otherwise the record of its photo goes to the head. *)
Lemma savePhotoOnly_photos cwd photo user t w :
  filing_time photo w = Some t →
  photos (exec (savePhotoOnly cwd photo user) w)
  = if ok (write_answer photo w)
    then <[user := unshift_capped (record_at photo user t) (photos_of user w)]>
           (photos w)
    else photos w.
Proof.
  intros Ht. apply filing_time_some in Ht.
  unfold savePhotoOnly.
  rewrite (exec_bind_returned _ _ _ _ (completion_timestamp_or_now photo w)).
  rewrite Ht, safeTimestamp_at.
  cbv beta zeta.
  set (w1 := exec (timestamp_or_now photo) w).
  assert (E1 : photos w1 = photos w) by apply timestamp_or_now_photos.
  rewrite (exec_bind_returned _ _ _ _ (guarded_write_completion _ _ _ _ w1)).
  match goal with
  | |- context [exec (try_catch ?b ?h) w1] => set (w2 := exec (try_catch b h) w1)
  end.
  assert (E2 : photos w2 = photos w1) by apply guarded_write_photos.
  unfold w1 at 1. rewrite next_answer_after_timestamp.
  destruct (ok (write_answer photo w)).
  - rewrite same_after_bind.
    + rewrite cache_in_memory_photos.
      rewrite (photos_of_same user w w2) by congruence.
      rewrite E2, E1. reflexivity.
    + intros _. apply along_bind; [ typeclasses eauto | frame | intros _ ].
      apply uploadToFirebase_photos.
  - unfold exec at 1; simpl. congruence.
Qed.

Lemma savePhotoOnly_one_more cwd photo user :
  along (one_more user) (savePhotoOnly cwd photo user).
Proof.
  intros w. unfold one_more. destruct (filing_time photo w) as [t|] eqn:Et.
  - rewrite (savePhotoOnly_photos _ _ _ t) by exact Et.
    destruct (ok (write_answer photo w)); eauto.
  - unfold exec. rewrite savePhotoOnly_unfiled by exact Et. auto.
Qed.

Ltac one_more_bind :=
  eapply (along_bind_comp (same photos) (one_more _) (one_more _));
  [ frame | intros ? | intros ? ? E; left; exact E | apply one_more_same_l ].

(** The guarded part of [cachePhoto] (the write and the follow-up photo)
    adds at most the follow-up photo to the cache. *)
Lemma write_and_follow_up_one_more cwd path data user session :
  along (one_more user)
    (try_catch
       (fs_writeFile path data ;;
        logger_info (PhotoSavedToFile path) ;;
        match session with
        | Some session =>
            try_catch
              (logger_info (TakingFollowUp user) ;;
               nextPhoto <- camera_requestPhoto session ;;
               logger_info (FollowUpTaken user (photo_timestamp nextPhoto)) ;;
               savePhotoOnly cwd nextPhoto user)
              (fun error => logger_error (ErrorTakingFollowUp error))
        | None => ret tt
        end)
       (fun e => logger_error (FailedToSavePhoto e))).
Proof.
  eapply (along_try_comp (one_more user) (same photos) (one_more user));
    [ | intros ?; frame | auto | apply one_more_same_r ].
  one_more_bind. one_more_bind.
  destruct session as [s|]; [ | intros w; apply one_more_refl ].
  eapply (along_try_comp (one_more user) (same photos) (one_more user));
    [ | intros ?; frame | auto | apply one_more_same_r ].
  one_more_bind. one_more_bind. one_more_bind.
  apply savePhotoOnly_one_more.
Qed.

(** What [cachePhoto] does to the cache: the record of its photo goes to
    the head of the list the guarded part has left. *)
Lemma cachePhoto_photos cwd photo user session t w :
  filing_time photo w = Some t →
  ∃ w2, one_more user w w2
    ∧ photos (exec (cachePhoto cwd photo user session) w)
      = <[user := unshift_capped (record_at photo user t) (photos_of user w2)]>
          (photos w2).
Proof.
  intros Ht. apply filing_time_some in Ht.
  unfold cachePhoto.
  rewrite (exec_bind_returned _ _ _ _ (completion_timestamp_or_now photo w)).
  rewrite Ht, safeTimestamp_at.
  cbv beta zeta.
  set (w1 := exec (timestamp_or_now photo) w).
  assert (E1 : same photos w w1) by apply timestamp_or_now_photos.
  match goal with
  | |- context [exec (bind (try_catch ?b ?h) ?k) w1] =>
      set (guardedPart := try_catch b h);
      assert (R : returns guardedPart)
        by (apply returns_try; intros e; apply returns_call);
      assert (O : one_more user w1 (exec guardedPart w1))
        by apply write_and_follow_up_one_more
  end.
  exists (exec guardedPart w1). split.
  - exact (one_more_same_l _ _ _ _ E1 O).
  - rewrite (exec_bind_returned _ _ _ _ (returns_unit _ w1 R)).
    rewrite same_after_bind; [ apply cache_in_memory_photos | ].
    intros _. apply along_bind; [ typeclasses eauto | frame | intros _ ].
    apply uploadToFirebase_photos.
Qed.

Lemma unshift_capped_take p arr : unshift_capped p arr = take 50 (p :: arr).
Proof.
  unfold unshift_capped. destruct (Nat.ltb_spec 50 (length (p :: arr))).
  - reflexivity.
  - symmetry. apply firstn_all2. lia.
Qed.

Lemma photos_of_inserted user arr (m : gmap string (list StoredPhoto)) w :
  photos w = <[user := arr]> m → photos_of user w = arr.
Proof. unfold photos_of. intros ->. rewrite lookup_insert_eq. reflexivity. Qed.

(** [/api/photos] maps the list in its order, and fails only on a record
    without timestamp. *)
Lemma map_M_photoMeta arr w :
  exec (map_M photoMeta arr) w = w
  ∧ match completion (map_M photoMeta arr) w with
    | Returned items => Forall2 describes arr items
    | Thrown e => Exists (fun p => timestamp p = None) arr
    end.
Proof.
  induction arr as [|p rest [IHw IHc]]; simpl.
  - split; [ reflexivity | constructor ].
  - unfold exec, completion in *. unfold bind at 1 3.
    assert (Ep : photoMeta p w
                 = (w, match timestamp p with
                       | Some t =>
                           Returned {| item_requestId := requestId p;
                                       item_timestamp := getTime t;
                                       item_filename := filename p;
                                       item_size := size p;
                                       item_mimeType := mimeType p |}
                       | None => Thrown TypeError
                       end)).
    { unfold photoMeta, method, bind, ret, throw.
      destruct (timestamp p); reflexivity. }
    rewrite Ep. destruct (timestamp p) as [t|] eqn:Et.
    + unfold bind, ret.
      destruct (map_M photoMeta rest w) as [w' [items|e]]; simpl in *.
      * split; [ exact IHw | ]. constructor; [ | exact IHc ].
        repeat split; simpl; eauto.
      * split; [ exact IHw | ]. apply Exists_cons_tl, IHc.
    + split; [ reflexivity | ]. apply Exists_cons_hd, Et.
Qed.

(** C2.  The cache is kept in the order of caching, the latest first:
    [cachePhoto] puts the record of its photo at index 0, ahead of the
    records that were there (and of the follow-up photo, if one was
    cached on the way); [savePhotoOnly] does the same whenever it caches,
    that is, whenever its file was written; and [/api/photos] answers an
    authenticated reader with one entry per record of the reader's list,
    in the order of the list.  (A photo whose timestamp is an Invalid
    Date has no record: both functions throw on it before they do
    anything, and the lists stay as they were.) *)
Theorem newest_first cwd photo user session w req reader :
  usable (authUserId req) = Some reader →
  match record_of photo user w with
  | Some record =>
      (∃ older,
          photos_of user (exec (cachePhoto cwd photo user session) w)
          = take 50 (record :: older)
          ∧ (older = photos_of user w
             ∨ ∃ followUp, older = take 50 (followUp :: photos_of user w)))
      ∧ photos_of user (exec (savePhotoOnly cwd photo user) w)
        = (if ok (write_answer photo w)
           then take 50 (record :: photos_of user w)
           else photos_of user w)
  | None =>
      exec (cachePhoto cwd photo user session) w = w
      ∧ exec (savePhotoOnly cwd photo user) w = w
  end
  ∧ match completion (photosRoute req) w with
    | Returned resp =>
        ∃ items,
          resp = {| status := 200; headers := []; payload := PhotosJson items |}
          ∧ Forall2 describes (photos_of reader w) items
    | Thrown _ => Exists (fun p => timestamp p = None) (photos_of reader w)
    end.
Proof.
  intros Hreader. split.
  - unfold record_of. destruct (filing_time photo w) as [t|] eqn:Et.
    + split.
      * destruct (cachePhoto_photos cwd photo user session t w Et)
          as (w2 & O & E).
        exists (photos_of user w2). split.
        -- rewrite (photos_of_inserted _ _ _ _ E). apply unshift_capped_take.
        -- destruct O as [O|[p O]].
           ++ left. apply photos_of_same, O.
           ++ right. exists p. rewrite (photos_of_inserted _ _ _ _ O).
              apply unshift_capped_take.
      * pose proof (savePhotoOnly_photos cwd photo user t w Et) as E.
        destruct (ok (write_answer photo w)).
        -- rewrite (photos_of_inserted _ _ _ _ E). apply unshift_capped_take.
        -- apply photos_of_same, E.
    + unfold exec.
      rewrite cachePhoto_unfiled, savePhotoOnly_unfiled by exact Et.
      split; reflexivity.
  - unfold photosRoute. rewrite Hreader.
    destruct (map_M_photoMeta (photos_of reader w) w) as [Ew Ec].
    unfold completion, exec, bind, gets in *; simpl.
    destruct (map_M photoMeta (photos_of reader w) w) as [w' [items|e]];
      simpl in *; [ exists items; split; [ reflexivity | exact Ec ] | exact Ec ].
Qed.

(** ** C3: requests without an authenticated user *)




(** ** C9: a photo is looked up in the list of the requesting user only *)

Lemma In_take {A} (x : A) n l : In x (take n l) → In x l.
Proof.
  intros H. rewrite <- (take_drop n l). apply in_or_app. left. exact H.
Qed.

Lemma cache_in_memory_owned photo user name :
  along (preserving owned)
    (cache_in_memory (cachedPhoto_of photo user name) user).
Proof.
  intros w H u p. unfold photos_of at 1. rewrite cache_in_memory_photos.
  rewrite lookup_insert. destruct (decide (user = u)) as [<-|]; simpl.
  - rewrite unshift_capped_take. intros Hin. apply In_take in Hin.
    destruct Hin as [<-|Hin]; [ reflexivity | apply (H _ _ Hin) ].
  - apply H.
Qed.

Lemma react_owned cwd e : along (preserving owned) (react cwd e).
Proof.
  destruct e; try (match goal with r : Route |- _ => destruct r end);
    open_all;
    repeat first
      [ along_step
      | apply cache_in_memory_owned
      | apply along_ask; intros w H; exact H
      | apply along_modify; intros w H; exact H ].
Qed.

Lemma run_owned cwd events w : owned w → owned (run cwd events w).
Proof.
  revert w. induction events as [|e rest IH]; intros w H; simpl.
  - exact H.
  - apply IH. apply (react_owned cwd e w H).
Qed.

Lemma boot_owned cwd files objects answers :
  owned (boot cwd files objects answers).
Proof.
  intros u p. unfold photos_of. rewrite boot_photos, lookup_empty.
  intros [].
Qed.

Lemma sameRequestId_spec wanted p :
  sameRequestId wanted p = true ↔ requestId p = Some wanted.
Proof.
  unfold sameRequestId. destruct (requestId p) as [id|].
  - rewrite String.eqb_eq. split; [ intros ->; reflexivity | congruence ].
  - split; discriminate.
Qed.

(** C9.  In any state the application can reach, an authenticated request
    for [/api/photo/:requestId] is answered from the list of the
    requesting user alone: with the bytes and the MIME type of a record
    of that list which bears the requested id and names that user, or
    with 404 when that list has no such record; whatever other users
    have cached, the answer is the same. *)
Theorem photo_lookup_confined_to_requester
    cwd files objects answers events req reader :
  usable (authUserId req) = Some reader →
  let w := run cwd events (boot cwd files objects answers) in
  (∃ resp,
      completion (photoRoute req) w = Returned resp
      ∧ ((∃ p, In p (photos_of reader w)
               ∧ userId p = reader
               ∧ requestId p = Some (params_requestId req)
               ∧ resp = {| status := 200;
                           headers := [("Content-Type", mimeType p);
                                       ("Cache-Control", Some "no-cache")];
                           payload := Binary (buffer p) |})
         ∨ ((∀ p, In p (photos_of reader w) →
                  requestId p ≠ Some (params_requestId req))
            ∧ resp = {| status := 404; headers := [];
                        payload := ErrorJson "Photo not found" |})))
  ∧ ∀ w', photos_of reader w' = photos_of reader w →
          completion (photoRoute req) w' = completion (photoRoute req) w.
Proof.
  intros Hreader w. split.
  - unfold photoRoute. rewrite Hreader.
    unfold completion, bind, gets; simpl.
    destruct (find (sameRequestId (params_requestId req)) (photos_of reader w))
      as [p|] eqn:Efind.
    + eexists. split; [ reflexivity | left ]. exists p.
      apply find_some in Efind. destruct Efind as [Hin Hid].
      repeat split; [ exact Hin | | apply sameRequestId_spec, Hid ].
      apply (run_owned cwd events _ (boot_owned cwd files objects answers)).
      exact Hin.
    + eexists. split; [ reflexivity | right ]. split; [ | reflexivity ].
      intros p Hin Hid. apply sameRequestId_spec in Hid.
      rewrite (find_none _ _ Efind p Hin) in Hid. discriminate.
  - intros w' E. unfold photoRoute. rewrite Hreader.
    unfold completion, bind, gets; simpl. rewrite E.
    destruct (find (sameRequestId (params_requestId req)) (photos_of reader w));
      reflexivity.
Qed.

(** ** C10: the list update of the two revisions *)

(** Running a computation whose steps are all laid open: every answer of
    the host that decides a branch is split into its two cases. *)
Ltac split_answers :=
  repeat match goal with
         | |- context [ok (?o ?n)] => destruct (ok (o n)) eqn:?; simpl
         end.

Ltac lay_open :=
  unfold Original.cachePhoto, Original.cache_in_memory;
  open_all;
  unfold cache_in_memory, record_of, record_at, filing_time, filing_date,
    safe, write_answer, next_answer, cachedPhoto_of, baseName, fullPath,
    photos_of, method, throwing_method;
  unfold exec, completion, bind, try_catch, gets, modify, ask, ret, throw;
  simpl.

Lemma cache_in_memory_same_in_both_revisions p user w :
  Original.cache_in_memory p user w = cache_in_memory p user w.
Proof.
  unfold Original.cache_in_memory, cache_in_memory, unshift_capped, photos_of,
    bind, gets, modify, method, ret, throw, default; simpl.
  destruct (timestamp p); reflexivity.
Qed.

(** C10.  The step that updates the cache is the same function in both
    revisions of the file: on the same state and record it leaves the
    same state and completes the same way.  So a call of [cachePhoto]
    that takes no follow-up photo leaves the same lists and the same
    latest-photo timestamps in both: the list of the user is the record
    of the photo put before the prior list and cut to 50, and the
    timestamp of the user is that of the photo.  (A photo whose timestamp
    is an Invalid Date has no record and changes neither, in both
    revisions; one without timestamp is cached and leaves the latest
    timestamp as it was.) *)
Theorem list_update_agrees_across_revisions cwd photo user w :
  (∀ p u w0, Original.cache_in_memory p u w0 = cache_in_memory p u w0)
  ∧ photos (exec (Original.cachePhoto cwd photo user) w)
    = photos (exec (cachePhoto cwd photo user None) w)
  ∧ latestPhotoTimestamp (exec (Original.cachePhoto cwd photo user) w)
    = latestPhotoTimestamp (exec (cachePhoto cwd photo user None) w)
  ∧ photos (exec (cachePhoto cwd photo user None) w)
    = match record_of photo user w with
      | Some record =>
          <[user := take 50 (record :: photos_of user w)]> (photos w)
      | None => photos w
      end
  ∧ latestPhotoTimestamp (exec (cachePhoto cwd photo user None) w)
    = match photo_timestamp photo with
      | Some (DateAt t) =>
          <[user := getTime (DateAt t)]> (latestPhotoTimestamp w)
      | Some InvalidDate | None => latestPhotoTimestamp w
      end.
Proof.
  split; [ exact cache_in_memory_same_in_both_revisions | ].
  unfold record_of, filing_time, filing_date.
  destruct (photo_timestamp photo) as [[t|]|] eqn:Ets; simpl default;
    cbv beta iota; rewrite <- ?unshift_capped_take; unfold unshift_capped;
    lay_open; rewrite ?Ets; simpl; split_answers; repeat split; reflexivity.
Qed.

(** ** C8: what a failed write does in [cachePhoto] and in [savePhotoOnly] *)

Lemma take_new {A} (new old : list A) :
  take (length (new ++ old) - length old) (new ++ old) = new.
Proof.
  rewrite length_app.
  replace (length new + length old - length old)%nat with (length new) by lia.
  apply take_app_length.
Qed.

(** The calls in front of [old] in the list [l]. *)
Ltac front_of l old :=
  lazymatch l with
  | old => constr:(@nil HostCall)
  | ?c :: ?rest => let p := front_of rest old in constr:(c :: p)
  end.

(** Reads the calls a laid-open computation has issued off its history. *)
Ltac read_issued :=
  repeat match goal with
         | |- context [take (?n - length (history ?w)) ?l] =>
             let p := front_of l (history w) in
             replace (take (n - length (history w)) l) with p
               by (symmetry; exact (take_new p (history w)))
         end.

(** C8.  When the write of the file fails, [cachePhoto] still puts the
    record at the head of the list of the user and, for a photo that
    has a timestamp, sets the latest-photo timestamp and issues the
    upload; [savePhotoOnly] returns at once: the lists, the latest-photo
    timestamps, the files and the external store are as they were, and
    no upload is issued.  (On a photo whose timestamp is an Invalid Date
    neither gets as far as the write: both throw and leave the state as
    it was.) *)
Theorem failed_write_cached_by_cachePhoto_only cwd photo user session w :
  ok (write_answer photo w) = false →
  let cached := exec (cachePhoto cwd photo user session) w in
  let saved := exec (savePhotoOnly cwd photo user) w in
  match record_of photo user w with
  | Some record =>
      photos cached
      = <[user := take 50 (record :: photos_of user w)]> (photos w)
      ∧ (∀ d, photo_timestamp photo = Some d →
           latestPhotoTimestamp cached
           = <[user := getTime d]> (latestPhotoTimestamp w)
           ∧ ∃ meta,
               In (Upload (path_join [SNAPSHOTS_DIR cwd; filename record])
                     ("sessions/" ++ user ++ "/images/" ++ filename record)
                     meta)
                  (issued (cachePhoto cwd photo user session) w))
      ∧ photos saved = photos w
      ∧ latestPhotoTimestamp saved = latestPhotoTimestamp w
      ∧ disk saved = disk w
      ∧ bucket saved = bucket w
      ∧ completion (savePhotoOnly cwd photo user) w = Returned tt
      ∧ ∀ file key meta,
          ¬ In (Upload file key meta)
              (issued (savePhotoOnly cwd photo user) w)
  | None => cached = w ∧ saved = w
  end.
Proof.
  intros Hfail cached saved. subst cached saved. revert Hfail.
  unfold record_of, filing_time, filing_date, write_answer.
  destruct (photo_timestamp photo) as [[t|]|] eqn:Ets; simpl default;
    cbv beta iota; intros Hfail.
  1, 3: rewrite <- unshift_capped_take; unfold issued; lay_open;
    rewrite ?Ets; simpl; rewrite ?Hfail; simpl; split_answers;
    (split; [ reflexivity | ]);
    (split;
     [ intros d' E; inversion E; subst;
       (split; [ reflexivity | read_issued; eexists; simpl; eauto ])
     | ]);
    repeat (split; [ reflexivity | ]);
    intros file key meta; read_issued; simpl; intuition discriminate.
  unfold exec.
  rewrite cachePhoto_unfiled, savePhotoOnly_unfiled
    by (apply filing_time_none; exact Ets).
  split; reflexivity.
Qed.

(** ** C5: the key of an upload *)

Lemma uploadToFirebase_store_keyed cwd p :
  along (preserving (store_keyed cwd)) (uploadToFirebase cwd p).
Proof.
  unfold uploadToFirebase. open_host.
  repeat first
    [ along_step
    | apply along_ask; intros w H; exact H
    | apply along_modify; intros w H; exact H ].
  apply along_modify. intros w H key obj. simpl. rewrite lookup_insert.
  destruct (decide _) as [<-|]; [ | apply H ].
  intros [= <-]. exists p. repeat split.
Qed.

Lemma react_store_keyed cwd e :
  along (preserving (store_keyed cwd)) (react cwd e).
Proof.
  destruct e; try (match goal with r : Route |- _ => destruct r end);
    open_handlers; unfold cache_in_memory; open_host;
    repeat first
      [ along_step
      | apply uploadToFirebase_store_keyed
      | apply along_ask; intros w H; exact H
      | apply along_modify; intros w H; exact H ].
Qed.

Lemma run_store_keyed cwd events w :
  store_keyed cwd w → store_keyed cwd (run cwd events w).
Proof.
  revert w. induction events as [|e rest IH]; intros w H; simpl.
  - exact H.
  - apply IH. apply (react_store_keyed cwd e w H).
Qed.

Lemma boot_store_keyed cwd files answers :
  store_keyed cwd (boot cwd files ∅ answers).
Proof.
  intros key obj.
  replace (bucket (boot cwd files ∅ answers))
    with (∅ : gmap string BucketObject).
  - rewrite lookup_empty. discriminate.
  - unfold boot. lay_open. split_answers; reflexivity.
Qed.

(** C5.  The upload [uploadToFirebase] issues for a record goes to the
    key [sessions/<userId>/images/<filename>], with the [userId] and
    the [filename] of that record, and reads the file of that name in
    the snapshots directory; the external store gains an object under
    that key when the host accepts the upload, and is unchanged
    otherwise (also for a record without timestamp or with an Invalid
    Date, for which no upload is issued).  So after any run that starts
    from an empty store, every object of the store sits under such a
    key. *)
Theorem upload_key_is_sessions_user_images_filename
    cwd p w files answers events :
  let key := "sessions/" ++ userId p ++ "/images/" ++ filename p in
  let file := path_join [SNAPSHOTS_DIR cwd; filename p] in
  (∀ file' key' meta,
      In (Upload file' key' meta) (issued (uploadToFirebase cwd p) w) →
      key' = key ∧ file' = file ∧ meta_userId meta = userId p)
  ∧ bucket (exec (uploadToFirebase cwd p) w)
    = match timestamp p with
      | Some (DateAt t) =>
          if ok (next_answer w)
          then <[key := {| source := file;
                           metadata :=
                             {| contentType := mimeType p;
                                meta_userId := userId p;
                                meta_requestId := requestId p;
                                meta_timestamp := isoString (ms t) |} |}]>
                 (bucket w)
          else bucket w
      | Some InvalidDate | None => bucket w
      end
  ∧ store_keyed cwd (run cwd events (boot cwd files ∅ answers)).
Proof.
  intros key file. subst key file. split; [ | split ].
  - unfold issued. lay_open.
    destruct (timestamp p) as [[t|]|]; simpl; split_answers;
      intros file' key' meta;
      read_issued; simpl; intros Hin;
      repeat (destruct Hin as [Hin|Hin];
              [ try discriminate Hin; injection Hin as <- <- <-;
                repeat split
              | ]);
      destruct Hin.
  - lay_open. destruct (timestamp p) as [[t|]|]; simpl; split_answers;
      reflexivity.
  - apply run_store_keyed, boot_store_keyed.
Qed.

(** ** C7: the auto-capture loop *)

#[local] Instance extends_preorder : PreOrder extends.
Proof.
  split.
  - intros w. exists []. reflexivity.
  - intros a b c [n1 H1] [n2 H2]. exists (n2 ++ n1)%list.
    rewrite H2, H1. apply app_assoc.
Qed.

Lemma extends_issue c w : extends w (issue c w).
Proof. exists [c]. reflexivity. Qed.

Lemma extends_quiet w w' : history w' = history w → extends w w'.
Proof. intros H. exists []. exact H. Qed.

(** Every computation of the application only adds to the history. *)
Ltac grow :=
  open_all; unfold cache_in_memory, method;
  repeat first
    [ along_step
    | apply along_ask; intros ?; apply extends_quiet; reflexivity
    | apply along_modify; intros ?; apply extends_issue
    | apply along_modify; intros ?; apply extends_quiet; reflexivity ].

Lemma cachePhoto_extends cwd photo user session :
  along extends (cachePhoto cwd photo user session).
Proof. grow. Qed.

Lemma issues_then_extends c a b d :
  issues c a b → extends b d → issues c a d.
Proof.
  intros (n1 & H1 & Hin) (n2 & H2). exists (n2 ++ n1)%list. split.
  - rewrite H2, H1. apply app_assoc.
  - apply in_or_app. right. exact Hin.
Qed.

Lemma extends_then_issues c a b d :
  extends a b → issues c b d → issues c a d.
Proof.
  intros (n1 & H1) (n2 & H2 & Hin). exists (n2 ++ n1)%list. split.
  - rewrite H2, H1. apply app_assoc.
  - apply in_or_app. left. exact Hin.
Qed.

(** A sequence whose first part always returns. *)
Lemma along_bind_returns {A B} (R1 R2 R : World → World → Prop)
    (m : M A) (k : A → M B) :
  returns m → along R1 m → (∀ a, along R2 (k a)) →
  (∀ a b c, R1 a b → R2 b c → R a c) →
  along R (bind m k).
Proof.
  intros Hr Hm Hk H12 w. destruct (Hr w) as [a Ha].
  rewrite (exec_bind_returned _ _ _ _ Ha).
  eapply H12; [ apply Hm | apply Hk ].
Qed.

Lemma camera_requestPhoto_issues s :
  along (issues (RequestPhoto s)) (camera_requestPhoto s).
Proof.
  intros w. unfold issues. lay_open. split_answers.
  - exists [RequestPhoto s]. simpl. auto.
  - exists [Rejected CameraError; RequestPhoto s]. simpl. auto.
Qed.

Ltac after_quiet_step :=
  eapply (along_bind_returns extends (issues _) (issues _));
  [ open_host; returns_all
  | grow
  | intros ?
  | intros ? ? ?; apply extends_then_issues ].

(** Once the loop is through its condition it asks the camera. *)
Lemma autoStream_body_issues cwd user session :
  along (issues (RequestPhoto session))
    (logger_info (AutoStreamTriggered user) ;;
     try_catch
       (now <- Date_now ;;
        modify (set_nextPhotoTime (insert user (now + 30000))) ;;
        logger_info (AutoStreamRequesting user) ;;
        photo <- camera_requestPhoto session ;;
        logger_info (AutoStreamCaptured user (photo_timestamp photo)) ;;
        now <- Date_now ;;
        modify (set_nextPhotoTime (insert user now)) ;;
        logger_info AutoStreamAboutToCache ;;
        cachePhoto cwd photo user (Some session) ;;
        logger_info AutoStreamCacheCompleted)
       (fun error => logger_error (ErrorAutoTakingPhoto error))).
Proof.
  after_quiet_step.
  eapply (along_try_comp (issues _) extends (issues _));
    [ | intros ?; grow | intros ? ? H; exact H
    | intros ? ? ?; apply issues_then_extends ].
  after_quiet_step. after_quiet_step. after_quiet_step.
  eapply (along_bind_comp (issues _) extends (issues _));
    [ apply camera_requestPhoto_issues
    | intros ?
    | intros ? ? H; exact H
    | intros ? ? ?; apply issues_then_extends ].
  repeat first
    [ apply cachePhoto_extends
    | match goal with
      | |- along _ (bind _ _) =>
          apply along_bind; [ typeclasses eauto .. | | intros ? ]
      end
    | grow ].
Qed.

Lemma autoStreamDue_completion user w :
  completion (autoStreamDue user) w = Returned (due user w).
Proof.
  unfold due, next_answer. lay_open.
  destruct (truthy (isStreamingPhotos w !! user)); reflexivity.
Qed.

Lemma autoStreamDue_exec user w :
  exec (autoStreamDue user) w
  = if truthy (isStreamingPhotos w !! user) then consume w else w.
Proof.
  lay_open. destruct (truthy (isStreamingPhotos w !! user)); reflexivity.
Qed.

(** C7.  [onSession] hands [setInterval] the auto-capture callback with
    a period of 1000 ms.  Each time it fires, the callback asks the
    camera for a photo when the streaming flag of the user is true and
    the clock is past the user's next photo time; otherwise it issues
    nothing at all and leaves the state as it was (but for the one
    reading of the clock, which it takes only when the flag is true).
    So while the flag is false no photo is requested. *)
Theorem auto_capture_polls_the_streaming_flag cwd session w :
  let user := user_of_session session in
  let tick := autoStream cwd user session in
  (∃ subs,
      completion (onSession cwd session) w = Returned subs
      ∧ intervalMs subs = 1000
      ∧ intervalCallback subs = tick)
  ∧ (if truthy (isStreamingPhotos w !! user)
        && (default 0 (nextPhotoTime w !! user) <? ms (clock (next_answer w)))
     then In (RequestPhoto session) (issued tick w)
     else issued tick w = []
          ∧ exec tick w
            = (if truthy (isStreamingPhotos w !! user) then consume w
               else w)).
Proof.
  intros user tick. split.
  - eexists. split; [ | split ]; [ lay_open; reflexivity | reflexivity .. ].
  - fold (due user w). subst tick. unfold issued, autoStream.
    rewrite (exec_bind_returned _ _ _ _ (autoStreamDue_completion user w)).
    pose proof (autoStreamDue_exec user w) as Ew.
    assert (Eh : history (exec (autoStreamDue user) w) = history w).
    { rewrite Ew. destruct (truthy _); reflexivity. }
    destruct (due user w).
    + destruct (autoStream_body_issues cwd user session
                  (exec (autoStreamDue user) w)) as (new & Hnew & Hin).
      rewrite Hnew, Eh, take_new. exact Hin.
    + change (exec (ret tt) (exec (autoStreamDue user) w))
        with (exec (autoStreamDue user) w).
      rewrite Eh, Nat.sub_diag. split; [ reflexivity | exact Ew ].
Qed.

(** ** C6: failures of the host are caught, logged and swallowed *)
























Lemma cache_in_memory_throws p user w :
  timestamp p = None → completion (cache_in_memory p user) w = Thrown TypeError.
Proof. intros H. lay_open. rewrite H. reflexivity. Qed.

(** How [cachePhoto] and [savePhotoOnly] complete.  They let through two
    exceptions, neither of them a failure of the host: the [RangeError]
    of a timestamp that is an Invalid Date, and the [TypeError] of a
    photo without timestamp. *)
Lemma cachePhoto_completion cwd photo user session w :
  completion (cachePhoto cwd photo user session) w
  = match photo_timestamp photo with
    | Some (DateAt _) => Returned tt
    | Some InvalidDate => Thrown RangeError
    | None => Thrown TypeError
    end.
Proof.
  destruct (photo_timestamp photo) as [[t|]|] eqn:Ets.
  - apply returns_unit.
    unfold cachePhoto, timestamp_or_now. rewrite Ets.
    change (bind (ret (DateAt t)) ?k) with (k (DateAt t)). cbv beta.
    rewrite safeTimestamp_at.
    unfold cache_in_memory, cachedPhoto_of; simpl. rewrite Ets.
    open_all. returns_all.
  - unfold completion.
    rewrite cachePhoto_unfiled by (apply filing_time_none; exact Ets).
    reflexivity.
  - unfold cachePhoto.
    rewrite (completion_bind_returned _ _ _ _
               (completion_timestamp_or_now photo w)).
    unfold filing_date. rewrite Ets. simpl default.
    rewrite safeTimestamp_at. cbv beta zeta.
    match goal with
    | |- completion (bind (try_catch ?b ?h) ?k) ?w1 = _ =>
        assert (R : returns (try_catch b h))
          by (apply returns_try; intros e; apply returns_call);
        rewrite (completion_bind_returned _ _ _ _ (returns_unit _ w1 R))
    end.
    apply completion_bind_thrown, cache_in_memory_throws, Ets.
Qed.



(** ** C4: the file a photo is written to *)

(** *** Strings and segments *)

Lemma sapp_nil (b : string) : "" ++ b = b.
Proof. reflexivity. Qed.

Lemma sapp_cons x (a b : string) : String x a ++ b = String x (a ++ b).
Proof. reflexivity. Qed.

(** Appends with a known prefix, computed. *)
Ltac sapp := rewrite ?sapp_cons, ?sapp_nil.

Lemma sapp_assoc (a b c : string) : (a ++ b) ++ c = a ++ (b ++ c).
Proof.
  induction a as [|x a IH]; sapp; [ reflexivity | f_equal; exact IH ].
Qed.

Lemma occurs_app c (a b : string) :
  occurs c (a ++ b) = occurs c a || occurs c b.
Proof.
  induction a as [|x a IH]; sapp; simpl; [ reflexivity | ].
  rewrite IH. apply orb_assoc.
Qed.

Lemma split_slash_nonempty s : split_slash s ≠ [].
Proof.
  destruct s as [|c r]; simpl; [ discriminate | ].
  destruct (Ascii.eqb c "/"); [ discriminate | ].
  destruct (split_slash r); discriminate.
Qed.

Lemma split_slash_no_slash s : occurs "/" s = false → split_slash s = [s].
Proof.
  induction s as [|c r IH]; simpl; [ reflexivity | ].
  destruct (Ascii.eqb c "/"); simpl; [ intros H; discriminate H | ].
  intros H. rewrite (IH H). reflexivity.
Qed.

Lemma split_slash_app (a b : string) :
  split_slash (a ++ "/" ++ b) = (split_slash a ++ split_slash b)%list.
Proof.
  induction a as [|c a IH]; sapp; simpl; [ reflexivity | ].
  destruct (Ascii.eqb c "/"); simpl.
  - rewrite <- IH. sapp. reflexivity.
  - replace (a ++ String "/" b) with (a ++ "/" ++ b) by (sapp; reflexivity).
    rewrite IH.
    pose proof (split_slash_nonempty a) as Hne.
    destruct (split_slash a); [ contradiction | reflexivity ].
Qed.

Lemma split_slash_segments s :
  Forall (fun seg => occurs "/" seg = false) (split_slash s).
Proof.
  induction s as [|c r IH]; simpl; [ repeat constructor | ].
  destruct (Ascii.eqb c "/") eqn:Ec; [ constructor; [ reflexivity | exact IH ] | ].
  pose proof (split_slash_nonempty r) as Hne.
  destruct (split_slash r) as [|h t]; [ contradiction | ].
  inversion IH; subst. constructor; [ | assumption ].
  simpl. rewrite Ec. assumption.
Qed.

Lemma join_with_cons sep p q rest :
  join_with sep (p :: q :: rest) = p ++ sep ++ join_with sep (q :: rest).
Proof. reflexivity. Qed.

Lemma join_with_snoc sep l x :
  l ≠ [] → join_with sep (l ++ [x]) = join_with sep l ++ sep ++ x.
Proof.
  induction l as [|p l IH]; [ contradiction | intros _ ].
  destruct l as [|q l]; [ reflexivity | ].
  change (((p :: q :: l) ++ [x])%list) with (p :: q :: (l ++ [x]))%list.
  rewrite join_with_cons.
  change (q :: (l ++ [x]))%list with ((q :: l) ++ [x])%list.
  rewrite IH by discriminate. rewrite join_with_cons.
  rewrite !sapp_assoc. reflexivity.
Qed.

Lemma join_split s : join_with "/" (split_slash s) = s.
Proof.
  induction s as [|c r IH]; simpl; [ reflexivity | ].
  pose proof (split_slash_nonempty r) as Hne.
  destruct (Ascii.eqb c "/") eqn:Ec.
  - apply Ascii.eqb_eq in Ec. subst c.
    destruct (split_slash r) as [|h t]; [ contradiction | ].
    rewrite join_with_cons, IH. sapp. reflexivity.
  - destruct (split_slash r) as [|h t]; [ contradiction | ].
    destruct t as [|q t].
    + simpl in *. rewrite IH. reflexivity.
    + rewrite join_with_cons, sapp_cons. f_equal. exact IH.
Qed.

Lemma split_join l :
  l ≠ [] → Forall (fun seg => occurs "/" seg = false) l →
  split_slash (join_with "/" l) = l.
Proof.
  induction l as [|p l IH]; [ contradiction | intros _ Hall ].
  inversion Hall as [|? ? Hp Hl]; subst.
  destruct l as [|q l]; [ apply split_slash_no_slash, Hp | ].
  rewrite join_with_cons, split_slash_app, (split_slash_no_slash p Hp).
  rewrite IH by (discriminate || assumption). reflexivity.
Qed.

Lemma path_dirname_app dir name :
  occurs "/" name = false → path_dirname (dir ++ "/" ++ name) = dir.
Proof.
  intros H. unfold path_dirname.
  rewrite split_slash_app, (split_slash_no_slash name H).
  rewrite removelast_last. apply join_split.
Qed.

Lemma path_basename_app dir name :
  occurs "/" name = false → path_basename (dir ++ "/" ++ name) = name.
Proof.
  intros H. unfold path_basename.
  rewrite split_slash_app, (split_slash_no_slash name H).
  apply last_last.
Qed.

(** *** Normal forms of paths *)

Lemma plain_names seg :
  plain seg →
  String.eqb seg "" = false ∧ String.eqb seg "." = false
  ∧ String.eqb seg ".." = false.
Proof.
  intros [_ H]. apply orb_false_iff in H as [H H2].
  apply orb_false_iff in H as [H0 H1]. auto.
Qed.

Lemma step_plain allow stack seg :
  plain seg → normalize_step allow stack seg = seg :: stack.
Proof.
  intros H. destruct (plain_names seg H) as (H0 & H1 & H2).
  unfold normalize_step. rewrite H0, H1, H2. reflexivity.
Qed.

Lemma normal_nil allow : normal allow [].
Proof. exists [], []. repeat split; auto. Qed.

Lemma normal_push allow stack seg :
  plain seg → normal allow stack → normal allow (seg :: stack).
Proof.
  intros Hp (names & ups & -> & Hn & Hu & Ha).
  exists (seg :: names), ups. repeat split; auto.
Qed.

Lemma normal_tail allow seg stack :
  normal allow (seg :: stack) → normal allow stack.
Proof.
  intros (names & ups & E & Hn & Hu & Ha).
  destruct names as [|n names]; simpl in E.
  - destruct ups as [|u ups]; [ discriminate E | ].
    injection E as _ ->. inversion Hu; subst.
    exists [], ups. repeat split; auto.
    intros H. specialize (Ha H). discriminate Ha.
  - injection E as _ ->. inversion Hn; subst.
    exists names, ups. repeat split; auto.
Qed.

Lemma normal_step allow stack seg :
  occurs "/" seg = false → normal allow stack →
  normal allow (normalize_step allow stack seg).
Proof.
  intros Hs Hn. unfold normalize_step.
  destruct (String.eqb seg "") eqn:E0; [ exact Hn | ].
  destruct (String.eqb seg ".") eqn:E1; [ exact Hn | ]. simpl.
  destruct (String.eqb seg "..") eqn:E2.
  - apply String.eqb_eq in E2. subst seg.
    destruct stack as [|top below].
    + destruct allow; [ | apply normal_nil ].
      exists [], [".."]. repeat split; auto. discriminate.
    + destruct (String.eqb top "..") eqn:Et; [ | eapply normal_tail, Hn ].
      destruct allow; [ | exact Hn ].
      destruct Hn as (names & ups & E & Hnames & Hups & Ha).
      destruct names as [|n names].
      * exists [], (".." :: ups). simpl in E. rewrite E.
        repeat split; auto. discriminate.
      * simpl in E. injection E as -> _. inversion Hnames; subst.
        destruct (plain_names _ H1) as (_ & _ & Hdd). congruence.
  - apply normal_push; [ | exact Hn ].
    split; [ exact Hs | rewrite E0, E1, E2; reflexivity ].
Qed.

Lemma normal_fold allow segs acc :
  Forall (fun seg => occurs "/" seg = false) segs → normal allow acc →
  normal allow (fold_left (normalize_step allow) segs acc).
Proof.
  revert acc. induction segs as [|seg segs IH]; intros acc Hall Hn; simpl.
  - exact Hn.
  - inversion Hall; subst. apply IH; [ assumption | ].
    apply normal_step; assumption.
Qed.

(** Normalising a normal form gives it back. *)
Lemma fold_normal_rev allow stack :
  normal allow stack →
  fold_left (normalize_step allow) (rev stack) [] = stack.
Proof.
  induction stack as [|seg stack IH]; intros Hn; [ reflexivity | ].
  simpl. rewrite fold_left_app, (IH (normal_tail _ _ _ Hn)). simpl.
  destruct Hn as (names & ups & E & Hnames & Hups & Ha).
  destruct names as [|n names]; simpl in E.
  - destruct ups as [|u ups]; [ discriminate E | ].
    injection E as -> ->. inversion Hups; subst.
    destruct allow; [ | specialize (Ha eq_refl); discriminate Ha ].
    unfold normalize_step. simpl.
    destruct ups as [|u ups]; [ reflexivity | ].
    inversion H2; subst. reflexivity.
  - injection E as -> _. inversion Hnames; subst.
    apply step_plain. assumption.
Qed.

Lemma normal_segments allow stack :
  normal allow stack →
  Forall (fun seg => occurs "/" seg = false ∧ seg ≠ "") stack.
Proof.
  intros (names & ups & -> & Hn & Hu & _). apply Forall_app. split.
  - eapply Forall_impl; [ exact Hn | ]. intros seg Hp.
    split; [ apply Hp | ].
    destruct (plain_names seg Hp) as (H0 & _). intros ->. discriminate H0.
  - eapply Forall_impl; [ exact Hu | ]. intros seg ->.
    split; [ reflexivity | discriminate ].
Qed.

Lemma sapp_empty_r (a : string) : a ++ "" = a.
Proof. induction a as [|x a IH]; sapp; [ reflexivity | f_equal; exact IH ]. Qed.

Lemma sapp_nonempty_r (a b : string) : b ≠ "" → a ++ b ≠ "".
Proof. intros Hb. destruct a; sapp; [ exact Hb | discriminate ]. Qed.

Lemma ends_with_slash_app (a b : string) :
  b ≠ "" → ends_with_slash (a ++ b) = ends_with_slash b.
Proof.
  intros Hb. induction a as [|x a IH]; sapp; [ reflexivity | ].
  simpl. rewrite IH.
  pose proof (sapp_nonempty_r a b Hb) as Hne.
  destruct (a ++ b); [ contradiction | reflexivity ].
Qed.

Lemma ends_with_slash_no_slash s :
  occurs "/" s = false → ends_with_slash s = false.
Proof.
  induction s as [|c r IH]; [ reflexivity | ]. simpl.
  intros H. apply orb_false_iff in H as [Hc Hr].
  destruct r; [ exact Hc | apply IH, Hr ].
Qed.

Lemma starts_with_slash_join l :
  l ≠ [] → Forall (fun seg => occurs "/" seg = false ∧ seg ≠ "") l →
  starts_with_slash (join_with "/" l) = false.
Proof.
  destruct l as [|p rest]; [ contradiction | intros _ Hall ].
  inversion Hall as [|? ? [Hp Hne] _]; subst.
  destruct p as [|c p]; [ contradiction | ].
  simpl in Hp. apply orb_false_iff in Hp as [Hc _].
  destruct rest; [ exact Hc | rewrite join_with_cons; sapp; exact Hc ].
Qed.

Lemma fold_left_single {A B} (f : A → B → A) x a : fold_left f [x] a = f a x.
Proof. reflexivity. Qed.

(** Normalising [dir/name] for a plain [name]: [name] is put on top of
    what [dir] normalises to. *)
Lemma normalize_child dir name :
  dir ≠ "" → plain name →
  path_normalize (dir ++ "/" ++ name)
  = (if starts_with_slash dir then "/" else "")
      ++ join_with "/"
           (rev (name :: fold_left
                           (normalize_step (negb (starts_with_slash dir)))
                           (split_slash dir) [])).
Proof.
  intros Hdir Hp. unfold path_normalize, normalize_segments.
  destruct (plain_names name Hp) as (Hne & _).
  apply String.eqb_neq in Hne. destruct Hp as [Hs Hnames].
  assert (E0 : String.eqb (dir ++ "/" ++ name) "" = false).
  { destruct dir; [ contradiction | reflexivity ]. }
  assert (E1 : starts_with_slash (dir ++ "/" ++ name) = starts_with_slash dir).
  { destruct dir; [ contradiction | reflexivity ]. }
  assert (E2 : ends_with_slash (dir ++ "/" ++ name) = false).
  { rewrite <- sapp_assoc, ends_with_slash_app by exact Hne.
    apply ends_with_slash_no_slash, Hs. }
  rewrite E0, E1, E2, split_slash_app, (split_slash_no_slash name Hs).
  rewrite fold_left_app, fold_left_single.
  rewrite (step_plain _ _ name (conj Hs Hnames)).
  set (stack := fold_left _ (split_slash dir) []).
  assert (E3 : String.eqb (join_with "/" (rev (name :: stack))) "" = false).
  { apply String.eqb_neq. simpl rev.
    destruct (rev stack) as [|p l] eqn:Er; [ exact Hne | ].
    rewrite join_with_snoc by discriminate.
    apply sapp_nonempty_r. sapp. discriminate. }
  rewrite E3, sapp_empty_r. reflexivity.
Qed.

Lemma plain_snapshots : plain "snapshots".
Proof. split; reflexivity. Qed.

(** The snapshots directory is a normal path that ends in [snapshots]. *)
Lemma SNAPSHOTS_DIR_form cwd :
  ∃ stack,
    normal (negb (starts_with_slash cwd)) stack
    ∧ SNAPSHOTS_DIR cwd
      = (if starts_with_slash cwd then "/" else "")
          ++ join_with "/" (rev ("snapshots" :: stack)).
Proof.
  destruct (String.eqb cwd "") eqn:E.
  - apply String.eqb_eq in E. subst cwd. exists []. split.
    + apply normal_nil.
    + reflexivity.
  - exists (fold_left (normalize_step (negb (starts_with_slash cwd)))
              (split_slash cwd) []).
    split.
    + apply normal_fold; [ apply split_slash_segments | apply normal_nil ].
    + unfold SNAPSHOTS_DIR, path_join. simpl. rewrite E. simpl.
      apply normalize_child; [ | apply plain_snapshots ].
      intros ->. discriminate E.
Qed.

(** A plain name joined to the snapshots directory stays as it is. *)
Lemma path_join_snapshots cwd name :
  plain name →
  path_join [SNAPSHOTS_DIR cwd; name] = SNAPSHOTS_DIR cwd ++ "/" ++ name.
Proof.
  intros Hp. destruct (SNAPSHOTS_DIR_form cwd) as (stack & Hn & E).
  set (pre := if starts_with_slash cwd then "/" else "") in *.
  set (body := join_with "/" (rev ("snapshots" :: stack))) in *.
  pose proof (normal_push _ _ _ plain_snapshots Hn) as Hn'.
  pose proof (normal_segments _ _ Hn') as Hseg.
  apply Forall_rev in Hseg.
  assert (Hrev : rev ("snapshots" :: stack) ≠ []).
  { simpl. intros H. apply app_eq_nil in H as [_ H]. discriminate H. }
  assert (Hsplit : split_slash body = rev ("snapshots" :: stack)).
  { apply split_join; [ exact Hrev | ].
    eapply Forall_impl; [ exact Hseg | ]. intros seg [H _]. exact H. }
  assert (Hbody : starts_with_slash body = false)
    by (apply starts_with_slash_join; assumption).
  assert (Hstart : starts_with_slash (SNAPSHOTS_DIR cwd)
                   = starts_with_slash cwd).
  { rewrite E. unfold pre.
    destruct (starts_with_slash cwd); [ reflexivity | exact Hbody ]. }
  assert (Hfold : fold_left
                    (normalize_step (negb (starts_with_slash cwd)))
                    (split_slash (SNAPSHOTS_DIR cwd)) []
                  = "snapshots" :: stack).
  { rewrite E. unfold pre. destruct (starts_with_slash cwd).
    - replace (split_slash ("/" ++ body)) with ("" :: split_slash body)
        by reflexivity.
      rewrite Hsplit.
      replace (fold_left (normalize_step (negb true))
                 ("" :: rev ("snapshots" :: stack)) [])
        with (fold_left (normalize_step (negb true))
                (rev ("snapshots" :: stack)) [])
        by reflexivity.
      apply fold_normal_rev, Hn'.
    - rewrite sapp_nil, Hsplit. apply fold_normal_rev, Hn'. }
  assert (Hdir : SNAPSHOTS_DIR cwd ≠ "").
  { rewrite E. apply sapp_nonempty_r. unfold body.
    change (rev ("snapshots" :: stack)) with (rev stack ++ ["snapshots"])%list.
    destruct (rev stack) as [|p l]; [ discriminate | ].
    rewrite join_with_snoc by discriminate.
    apply sapp_nonempty_r. sapp. discriminate. }
  destruct (plain_names name Hp) as (Hne & _).
  unfold path_join. simpl.
  destruct (String.eqb (SNAPSHOTS_DIR cwd) "") eqn:Ed;
    [ apply String.eqb_eq in Ed; contradiction | ].
  rewrite Hne. simpl.
  rewrite (normalize_child _ _ Hdir Hp), Hstart, Hfold.
  fold pre. rewrite E.
  change (rev (name :: "snapshots" :: stack))
    with (rev ("snapshots" :: stack) ++ [name])%list.
  rewrite (join_with_snoc _ _ _ Hrev). fold body.
  rewrite !sapp_assoc. reflexivity.
Qed.

(** *** The generated name *)

Lemma digit_not_slash v : Ascii.eqb (digit v) "/" = false.
Proof.
  unfold digit.
  assert (H : 0 <= v mod 10 < 10) by (apply Z.mod_pos_bound; lia).
  assert (Hn : (Z.to_nat (v mod 10) < 10)%nat) by lia.
  destruct (Z.to_nat (v mod 10)) as [|[|[|[|[|[|[|[|[|[|n]]]]]]]]]];
    try reflexivity; lia.
Qed.

Lemma pad_no_slash n v : occurs "/" (pad n v) = false.
Proof.
  revert v. induction n as [|n IH]; intros v; [ reflexivity | ].
  change (pad (S n) v) with (pad n (v / 10) ++ String (digit v) "").
  rewrite occurs_app, IH.
  change (occurs "/" (String (digit v) ""))
    with (Ascii.eqb (digit v) "/" || false).
  rewrite digit_not_slash. reflexivity.
Qed.

Lemma iso_year_no_slash y : occurs "/" (iso_year y) = false.
Proof.
  unfold iso_year. destruct ((0 <=? y) && (y <=? 9999)).
  - apply pad_no_slash.
  - rewrite occurs_app, pad_no_slash. destruct (y <? 0); reflexivity.
Qed.

Lemma isoString_no_slash tv : occurs "/" (isoString tv) = false.
Proof.
  unfold isoString. destruct (civil_from_days (tv / msPerDay)) as [[y m] dd].
  rewrite !occurs_app, !pad_no_slash, iso_year_no_slash. reflexivity.
Qed.

Lemma colon_to_hyphen_slash c :
  Ascii.eqb (colon_to_hyphen c) "/" = Ascii.eqb c "/".
Proof.
  unfold colon_to_hyphen. destruct (Ascii.eqb c ":") eqn:E; [ | reflexivity ].
  apply Ascii.eqb_eq in E. subst c. reflexivity.
Qed.

Lemma colon_to_hyphen_keeps_slashes s :
  occurs "/" (map_chars colon_to_hyphen s) = occurs "/" s.
Proof.
  induction s as [|c r IH]; [ reflexivity | ].
  cbn [map_chars occurs]. rewrite colon_to_hyphen_slash, IH. reflexivity.
Qed.

Lemma safe_no_slash t : occurs "/" (safe t) = false.
Proof.
  unfold safe.
  rewrite colon_to_hyphen_keeps_slashes. apply isoString_no_slash.
Qed.

Lemma colon_to_hyphen_leaves_no_colon s :
  occurs ":" (map_chars colon_to_hyphen s) = false.
Proof.
  induction s as [|c r IH]; [ reflexivity | ].
  cbn [map_chars occurs]. rewrite IH, orb_false_r. unfold colon_to_hyphen.
  destruct (Ascii.eqb c ":") eqn:E; [ reflexivity | exact E ].
Qed.

(** The safe timestamp has no colon left. *)
Lemma safe_no_colon t : occurs ":" (safe t) = false.
Proof. apply colon_to_hyphen_leaves_no_colon. Qed.

Lemma extFromMime_no_slash mime : occurs "/" (extFromMime mime) = false.
Proof.
  unfold extFromMime. destruct mime as [mime|]; [ | reflexivity ].
  repeat match goal with
         | |- context [if ?b then _ else _] => destruct b
         end; reflexivity.
Qed.

Lemma baseName_plain photo t :
  no_slash (default "unknown" (photo_requestId photo)) →
  plain (baseName photo (safe t)).
Proof.
  intros H. unfold baseName. split; [ | reflexivity ].
  rewrite !occurs_app, safe_no_slash, extFromMime_no_slash, H.
  reflexivity.
Qed.

(** With a request id that can be one segment, the file goes directly
    under the snapshots directory, under the generated name. *)
Lemma fullPath_under_snapshots cwd photo t :
  no_slash (default "unknown" (photo_requestId photo)) →
  fullPath cwd photo (safe t)
  = SNAPSHOTS_DIR cwd ++ "/" ++ baseName photo (safe t).
Proof. intros H. apply path_join_snapshots, baseName_plain, H. Qed.

Lemma fs_writeFile_issues path data :
  along (issues (WriteFile path data)) (fs_writeFile path data).
Proof.
  intros w. unfold issues. lay_open. split_answers.
  - exists [WriteFile path data]. simpl. auto.
  - exists [Rejected WriteError; WriteFile path data]. simpl. auto.
Qed.

Lemma cachePhoto_issues_write cwd photo user session t w :
  filing_time photo w = Some t →
  In (WriteFile (fullPath cwd photo (safe t)) (photo_buffer photo))
     (issued (cachePhoto cwd photo user session) w).
Proof.
  intros Ht. apply filing_time_some in Ht.
  unfold issued, cachePhoto.
  rewrite (exec_bind_returned _ _ _ _ (completion_timestamp_or_now photo w)).
  rewrite Ht, safeTimestamp_at.
  cbv beta zeta. set (w1 := exec (timestamp_or_now photo) w).
  assert (Eh : history w1 = history w).
  { unfold w1, timestamp_or_now. destruct (photo_timestamp photo); reflexivity. }
  match goal with
  | |- context [exec ?rest w1] =>
      assert (I : issues (WriteFile (fullPath cwd photo (safe t))
                            (photo_buffer photo)) w1 (exec rest w1))
  end.
  { eapply (along_bind_comp (issues _) extends (issues _));
      [ | intros ?; grow | intros ? ? H; exact H
        | intros ? ? ?; apply issues_then_extends ].
    eapply (along_try_comp (issues _) extends (issues _));
      [ | intros ?; grow | intros ? ? H; exact H
        | intros ? ? ?; apply issues_then_extends ].
    eapply (along_bind_comp (issues _) extends (issues _));
      [ apply fs_writeFile_issues | intros ?; grow | intros ? ? H; exact H
      | intros ? ? ?; apply issues_then_extends ]. }
  destruct I as (new & Hnew & Hin). rewrite Hnew, Eh, take_new. exact Hin.
Qed.

(** C4.  The claim fails on a request id that holds a ["/"]: the id
    goes into the name as it is (only the colons of the timestamp are
    replaced), and [path.join] normalises the name.  With the id
    ["/../x"], [savePhotoOnly] writes the photo to [snapshots/x.jpg],
    whose basename is not the generated name the record and the upload
    carry, and nothing is at the path of that name; with the id
    ["x/../../y"], [cachePhoto] writes it to [y.jpg] beside the
    snapshots directory, not under it. *)
Theorem request_id_with_slash_changes_the_file :
  let w := fresh ∅ ∅ willing in
  let renamed := sample_photo "/../x" 0 in
  let escaping := sample_photo "x/../../y" 0 in
  let saved := exec (savePhotoOnly "/app" renamed "alice") w in
  let cached := exec (cachePhoto "/app" escaping "alice" None) w in
  SNAPSHOTS_DIR "/app" = "/app/snapshots"
  ∧ map filename (photos_of "alice" saved)
    = ["photo_1970-01-01T00-00-00.000Z_/../x.jpg"]
  ∧ disk saved !! "/app/snapshots/x.jpg" = Some (photo_buffer renamed)
  ∧ path_basename "/app/snapshots/x.jpg" = "x.jpg"
  ∧ disk saved
      !! "/app/snapshots/photo_1970-01-01T00-00-00.000Z_/../x.jpg" = None
  ∧ map filename (photos_of "alice" cached)
    = ["photo_1970-01-01T00-00-00.000Z_x/../../y.jpg"]
  ∧ disk cached !! "/app/y.jpg" = Some (photo_buffer escaping)
  ∧ path_dirname "/app/y.jpg" = "/app".
Proof. vm_compute. repeat split. Qed.

(** [savePhotoOnly] writes one file: that of its photo. *)
Lemma savePhotoOnly_writes cwd photo user t w :
  filing_time photo w = Some t →
  let path := fullPath cwd photo (safe t) in
  In (WriteFile path (photo_buffer photo))
     (issued (savePhotoOnly cwd photo user) w)
  ∧ (∀ path' data,
        In (WriteFile path' data) (issued (savePhotoOnly cwd photo user) w) →
        path' = path ∧ data = photo_buffer photo)
  ∧ (ok (write_answer photo w) = true →
     disk (exec (savePhotoOnly cwd photo user) w) !! path
     = Some (photo_buffer photo)).
Proof.
  unfold issued, filing_time, filing_date. lay_open.
  destruct (photo_timestamp photo) as [[t'|]|]; simpl; intros [= <-];
    split_answers; read_issued;
    (split; [ simpl; tauto | split ]);
    try (intros path' data Hin; simpl in Hin;
         repeat (destruct Hin as [Hin|Hin];
                 [ try discriminate Hin; injection Hin as <- <-; auto | ]);
         destruct Hin);
    intros Hok; try discriminate Hok; apply lookup_insert_eq.
Qed.

(** ** The statements at sample inputs *)

Example sample_baseName :
  baseName (sample_photo "r1" 1000) (safe one_second)
  = "photo_1970-01-01T00-00-01.000Z_r1.jpg".
Proof. reflexivity. Qed.

Example sample_fullPath :
  fullPath "/app" (sample_photo "r1" 1000) (safe one_second)
  = "/app/snapshots/photo_1970-01-01T00-00-01.000Z_r1.jpg".
Proof. reflexivity. Qed.

Example sample_toISOString :
  toISOString (Date_from 1700000000000) = ret "2023-11-14T22:13:20.000Z".
Proof. reflexivity. Qed.

(** The first and the last time value there are, and one past the last. *)
Example sample_toISOString_at_the_ends :
  toISOString (Date_from (- maxTimeValue)) = ret "-271821-04-20T00:00:00.000Z"
  ∧ toISOString (Date_from maxTimeValue) = ret "+275760-09-13T00:00:00.000Z"
  ∧ toISOString (Date_from (maxTimeValue + 1)) = throw RangeError
  ∧ getTime (Date_from (maxTimeValue + 1)) = NaN.
Proof. repeat split; reflexivity. Qed.

(** A photo whose timestamp is an Invalid Date, handed to [cachePhoto] on
    a willing host: nothing is written, cached or logged. *)
Example sample_invalid_date :
  cachePhoto "/app" (misdated_photo "r1") "alice" (Some sample_session)
    (fresh ∅ ∅ willing)
  = (fresh ∅ ∅ willing, Thrown RangeError).
Proof. reflexivity. Qed.

(** A button press on a host that rejects everything: the camera's
    rejection is followed by the error message, and nothing is cached. *)
Example sample_failed_capture :
  let w := exec (onButtonPress "/app" "alice" sample_session
                   {| buttonId := "main"; pressType := "short" |})
             (fresh ∅ ∅ failing) in
  history w
  = [Log Error (ErrorTakingPhoto CameraError);
     Rejected CameraError;
     RequestPhoto sample_session;
     ShowTextWall "Taking photo…" 4000;
     Log Info (ButtonPressed {| buttonId := "main"; pressType := "short" |})]
  ∧ photos_of "alice" w = [].
Proof. split; reflexivity. Qed.

(** A button press on a host whose camera delivers a photo with an
    Invalid Date: [cachePhoto] throws before the write, the handler logs
    the [RangeError], and nothing is written or cached. *)
Example sample_invalid_capture :
  let w := exec (onButtonPress "/app" "alice" sample_session
                   {| buttonId := "main"; pressType := "short" |})
             (fresh ∅ ∅ misdating) in
  history w
  = [Log Error (ErrorTakingPhoto RangeError);
     Log Info (PhotoTaken "alice" (Some InvalidDate));
     RequestPhoto sample_session;
     ShowTextWall "Taking photo…" 4000;
     Log Info (ButtonPressed {| buttonId := "main"; pressType := "short" |})]
  ∧ photos_of "alice" w = []
  ∧ disk w = ∅.
Proof. repeat split; reflexivity. Qed.

(** A capture on a willing host caches the photo ahead of its follow-up. *)
Example sample_capture_order :
  map filename
    (photos_of "alice"
       (exec (cachePhoto "/app" (sample_photo "r1" 1000) "alice"
                (Some sample_session))
          (fresh ∅ ∅ willing)))
  = ["photo_1970-01-01T00-00-01.000Z_r1.jpg";
     "photo_1970-01-01T00-00-05.000Z_next.jpg"].
Proof. vm_compute. reflexivity. Qed.

Lemma newest_first_witness :
  ∃ older,
    photos_of "alice"
      (exec (cachePhoto "/app" (sample_photo "r1" 1000) "alice"
               (Some sample_session))
         (boot "/app" ∅ ∅ willing))
    = take 50 (record_at (sample_photo "r1" 1000) "alice" one_second :: older).
Proof.
  destruct (newest_first "/app" (sample_photo "r1" 1000) "alice"
              (Some sample_session) (boot "/app" ∅ ∅ willing)
              (alice_asks "r1") "alice" eq_refl)
    as [H _].
  change (record_of (sample_photo "r1" 1000) "alice" (boot "/app" ∅ ∅ willing))
    with (Some (record_at (sample_photo "r1" 1000) "alice" one_second)) in H.
  destruct H as ((older & E & _) & _).
  exists older. exact E.
Defined.


Lemma failed_write_witness :
  ok (write_answer (sample_photo "r1" 1000) (boot "/app" ∅ ∅ failing)) = false
  ∧ photos
      (exec (savePhotoOnly "/app" (sample_photo "r1" 1000) "alice")
         (boot "/app" ∅ ∅ failing))
    = photos (boot "/app" ∅ ∅ failing).
Proof.
  split; [ reflexivity | ].
  pose proof (failed_write_cached_by_cachePhoto_only "/app"
                (sample_photo "r1" 1000) "alice" (Some sample_session)
                (boot "/app" ∅ ∅ failing) eq_refl) as H.
  change (record_of (sample_photo "r1" 1000) "alice" (boot "/app" ∅ ∅ failing))
    with (Some (record_at (sample_photo "r1" 1000) "alice" one_second)) in H.
  exact (proj1 (proj2 (proj2 H))).
Defined.

Lemma photo_lookup_witness :
  ∃ resp,
    completion (photoRoute (alice_asks "r1"))
      (run "/app" [CachePhoto (sample_photo "r1" 1000) "alice" None]
         (boot "/app" ∅ ∅ willing))
    = Returned resp.
Proof.
  destruct (photo_lookup_confined_to_requester "/app" ∅ ∅ willing
              [CachePhoto (sample_photo "r1" 1000) "alice" None]
              (alice_asks "r1") "alice" eq_refl)
    as ((resp & E & _) & _).
  exists resp. exact E.
Defined.

(** * Further properties of the code *)

(** ** The cache: eviction, isolation of users, agreement of the maps *)

Lemma take_50_cons {A} (p : A) l :
  (length l ≤ 50)%nat →
  take 50 (p :: l)
  = p :: (if (length l <? 50)%nat then l else removelast l).
Proof.
  intros Hlen. change (take 50 (p :: l)) with (p :: take 49 l). f_equal.
  destruct (Nat.ltb_spec (length l) 50) as [Hlt|Hge].
  - apply firstn_all2. lia.
  - rewrite removelast_firstn_len. f_equal. lia.
Qed.

(** X1.  In a state the application can reach, a photo that
    [savePhotoOnly] caches goes to index 0 and the records that were
    there follow in their order; when the list already held 50 records
    the last one, the oldest, is dropped and no other.  (A photo whose
    timestamp is an Invalid Date is not cached: the state stays as it
    was.) *)
Theorem eviction_drops_the_oldest
    cwd files objects answers events photo user :
  let w := run cwd events (boot cwd files objects answers) in
  ok (write_answer photo w) = true →
  match record_of photo user w with
  | Some record =>
      photos_of user (exec (savePhotoOnly cwd photo user) w)
      = record
          :: (if (length (photos_of user w) <? 50)%nat
              then photos_of user w
              else removelast (photos_of user w))
  | None => exec (savePhotoOnly cwd photo user) w = w
  end.
Proof.
  intros w Hok. unfold record_of.
  destruct (filing_time photo w) as [t|] eqn:Et.
  - pose proof (savePhotoOnly_photos cwd photo user t w Et) as E.
    rewrite Hok in E. rewrite (photos_of_inserted _ _ _ _ E).
    rewrite unshift_capped_take. apply take_50_cons.
    apply run_capped, boot_capped.
  - unfold exec. rewrite savePhotoOnly_unfiled by exact Et. reflexivity.
Qed.

Lemma eviction_witness :
  photos_of "alice"
    (exec (savePhotoOnly "/app" (sample_photo "r2" 2000) "alice")
       (run "/app" [CachePhoto (sample_photo "r1" 1000) "alice" None]
          (boot "/app" ∅ ∅ willing)))
  = [record_at (sample_photo "r2" 2000) "alice" two_seconds;
     record_at (sample_photo "r1" 1000) "alice" one_second].
Proof.
  pose proof (eviction_drops_the_oldest "/app" ∅ ∅ willing
                [CachePhoto (sample_photo "r1" 1000) "alice" None]
                (sample_photo "r2" 2000) "alice" eq_refl) as H.
  cbv zeta in H.
  change (record_of (sample_photo "r2" 2000) "alice" _)
    with (Some (record_at (sample_photo "r2" 2000) "alice" two_seconds)) in H.
  rewrite H. vm_compute. reflexivity.
Defined.

#[local] Instance untouched_preorder user : PreOrder (untouched user).
Proof.
  split.
  - intros w. split; reflexivity.
  - intros a b c [H1 H2] [H3 H4]. split; congruence.
Qed.

Lemma cache_in_memory_untouched p user other :
  user ≠ other → along (untouched other) (cache_in_memory p user).
Proof.
  intros Hne w. unfold untouched. lay_open.
  destruct (timestamp p); simpl; rewrite ?lookup_insert_ne by exact Hne;
    split; reflexivity.
Qed.

(** An event leaves alone every user it is not about. *)
Lemma react_untouched cwd e other :
  subject e ≠ Some other → along (untouched other) (react cwd e).
Proof.
  intros Hsub.
  assert (Hquiet : ∀ f : World → World,
             (∀ w, photos (f w) = photos w) →
             (∀ w, latestPhotoTimestamp (f w) = latestPhotoTimestamp w) →
             ∀ w, untouched other w (f w)).
  { intros f H1 H2 w. unfold untouched. rewrite H1, H2. auto. }
  destruct e; try (match goal with r : Route |- _ => destruct r end);
    simpl in Hsub; open_all;
    repeat first
      [ along_step
      | apply cache_in_memory_untouched; congruence
      | apply along_ask; apply Hquiet; reflexivity
      | apply along_modify; apply Hquiet; reflexivity ].
Qed.

(** X2.  The users of the cache are kept apart: an event that is about
    one user (that user's button press or interval, a [cachePhoto] or
    [savePhotoOnly] for that user), whatever the host answers, leaves
    the list and the latest-photo timestamp of every other user as they
    were; an event that is about no user (a session opening, a stop, a
    request) leaves those of every user. *)
Theorem events_touch_only_their_own_user cwd e other w :
  subject e ≠ Some other →
  photos_of other (exec (react cwd e) w) = photos_of other w
  ∧ latestPhotoTimestamp (exec (react cwd e) w) !! other
    = latestPhotoTimestamp w !! other.
Proof.
  intros Hsub. destruct (react_untouched cwd e other Hsub w) as [H1 H2].
  split; [ unfold photos_of; rewrite H1; reflexivity | exact H2 ].
Qed.

Lemma events_touch_only_their_own_user_witness :
  photos_of "bob"
    (exec (react "/app" (CachePhoto (sample_photo "r1" 1000) "alice"
                           (Some sample_session)))
       (boot "/app" ∅ ∅ willing))
  = photos_of "bob" (boot "/app" ∅ ∅ willing)
  ∧ latestPhotoTimestamp
      (exec (react "/app" (CachePhoto (sample_photo "r1" 1000) "alice"
                             (Some sample_session)))
         (boot "/app" ∅ ∅ willing)) !! "bob"
    = latestPhotoTimestamp (boot "/app" ∅ ∅ willing) !! "bob".
Proof.
  apply (events_touch_only_their_own_user "/app"
           (CachePhoto (sample_photo "r1" 1000) "alice" (Some sample_session))
           "bob" (boot "/app" ∅ ∅ willing)).
  discriminate.
Defined.

Lemma cache_in_memory_latest_agrees p user :
  along (preserving latest_agrees) (cache_in_memory p user).
Proof.
  intros w H u. specialize (H u). unfold latest_agrees, photos_of in *.
  revert H. lay_open. rewrite unshift_capped_take.
  change (take 50 (p :: default [] (photos w !! user)))
    with (p :: take 49 (default [] (photos w !! user))).
  destruct (timestamp p) as [t|] eqn:Et; simpl; intros [H1 H2];
    destruct (decide (user = u)) as [<-|Hne];
    rewrite ?lookup_insert_eq, ?lookup_insert_ne by exact Hne; simpl;
    try (split; [ exact H1 | exact H2 ]).
  - split; [ | discriminate ].
    intros q rest t' [= <- _] Hq. congruence.
  - split; [ intros q rest t' [= <- _] Hq; congruence | discriminate ].
Qed.

Lemma react_latest_agrees cwd e :
  along (preserving latest_agrees) (react cwd e).
Proof.
  destruct e; try (match goal with r : Route |- _ => destruct r end);
    open_all;
    repeat first
      [ along_step
      | apply cache_in_memory_latest_agrees
      | apply along_ask; intros w H; exact H
      | apply along_modify; intros w H; exact H ].
Qed.

Lemma run_latest_agrees cwd events w :
  latest_agrees w → latest_agrees (run cwd events w).
Proof.
  revert w. induction events as [|e rest IH]; intros w H; simpl.
  - exact H.
  - apply IH. apply (react_latest_agrees cwd e w H).
Qed.

Lemma boot_latest_agrees cwd files objects answers :
  latest_agrees (boot cwd files objects answers).
Proof.
  assert (E : latestPhotoTimestamp (boot cwd files objects answers) = ∅).
  { unfold boot. lay_open. split_answers; reflexivity. }
  intros u. unfold photos_of. rewrite boot_photos, E, !lookup_empty.
  split; [ intros ? ? ? [=] | intros ? [=] ].
Qed.

(** X3.  In every state the application can reach, the latest-photo
    timestamp of a user agrees with the user's list: there is none while
    the list is empty, and when the record at index 0 has a timestamp,
    it is that timestamp. *)
Theorem latest_timestamp_is_that_of_the_head
    cwd files objects answers events user :
  let w := run cwd events (boot cwd files objects answers) in
  match photos_of user w with
  | [] => latestPhotoTimestamp w !! user = None
  | p :: _ =>
      ∀ t, timestamp p = Some t →
           latestPhotoTimestamp w !! user = Some (getTime t)
  end.
Proof.
  intros w.
  destruct (run_latest_agrees cwd events _
              (boot_latest_agrees cwd files objects answers) user)
    as [H1 H2].
  fold w in H1, H2. destruct (photos_of user w) as [|p rest] eqn:E.
  - destruct (latestPhotoTimestamp w !! user) as [t|] eqn:El;
      [ | reflexivity ].
    destruct (H2 t eq_refl eq_refl).
  - intros t Ht. apply (H1 p rest t eq_refl Ht).
Qed.

(** ** The names of the records and of the files *)

Lemma along_bind_value {A B} (R : World → World → Prop) `{!PreOrder R}
    (P : A → Prop) (m : M A) (k : A → M B) :
  (∀ w a, completion m w = Returned a → P a) →
  along R m → (∀ a, P a → along R (k a)) → along R (bind m k).
Proof.
  intros HP Hm Hk w. specialize (Hm w). specialize (HP w).
  unfold exec, completion, bind in *.
  destruct (m w) as [w' [a|e]]; simpl in *; [ | exact Hm ].
  etransitivity; [ exact Hm | apply Hk, HP; reflexivity ].
Qed.

Lemma timestamp_or_now_value photo w a :
  completion (timestamp_or_now photo) w = Returned a →
  ∀ t, photo_timestamp photo = Some t → a = t.
Proof.
  rewrite completion_timestamp_or_now. intros [= <-] t Ht.
  unfold filing_date. rewrite Ht. reflexivity.
Qed.

Lemma cache_in_memory_well_named p user :
  named_after_itself p → along (preserving well_named) (cache_in_memory p user).
Proof.
  intros Hp w H u q. unfold photos_of at 1. rewrite cache_in_memory_photos.
  rewrite lookup_insert. destruct (decide (user = u)) as [<-|]; simpl.
  - rewrite unshift_capped_take. intros Hin. apply In_take in Hin.
    destruct Hin as [<-|Hin]; [ exact Hp | apply (H _ _ Hin) ].
  - apply H.
Qed.

Lemma record_named_after_itself photo user t :
  (∀ d, photo_timestamp photo = Some d → DateAt t = d) →
  named_after_itself (cachedPhoto_of photo user (baseName photo (safe t))).
Proof.
  intros H. exists t. split; [ reflexivity | ].
  intros d E. symmetry. apply H, E.
Qed.

(** Past [safeTimestamp], a computation works with the safe timestamp of
    a time value; on an Invalid Date it has ended. *)
Lemma along_safeTimestamp {B} (R : World → World → Prop) `{!PreOrder R}
    (d : Date) (k : string → M B) :
  (∀ t, d = DateAt t → along R (k (safe t))) →
  along R (bind (safeTimestamp d) k).
Proof.
  intros Hk. destruct d as [t|].
  - rewrite safeTimestamp_at. apply Hk. reflexivity.
  - rewrite safeTimestamp_invalid. apply along_throw. assumption.
Qed.

Ltac keep_well_named :=
  repeat first
    [ along_step
    | apply cache_in_memory_well_named, record_named_after_itself; assumption
    | apply along_ask; intros ? H; exact H
    | apply along_modify; intros ? H; exact H ].

Lemma savePhotoOnly_well_named cwd photo user :
  along (preserving well_named) (savePhotoOnly cwd photo user).
Proof.
  unfold savePhotoOnly.
  apply (along_bind_value _ _ _ _ (timestamp_or_now_value photo)).
  - unfold timestamp_or_now. open_host. keep_well_named.
  - intros d Hd. apply along_safeTimestamp; [ typeclasses eauto | ].
    intros t ->. unfold uploadToFirebase. open_host. keep_well_named.
Qed.

Lemma cachePhoto_well_named cwd photo user session :
  along (preserving well_named) (cachePhoto cwd photo user session).
Proof.
  unfold cachePhoto.
  apply (along_bind_value _ _ _ _ (timestamp_or_now_value photo)).
  - unfold timestamp_or_now. open_host. keep_well_named.
  - intros d Hd. apply along_safeTimestamp; [ typeclasses eauto | ].
    intros t ->. unfold uploadToFirebase. open_host.
    repeat first
      [ apply savePhotoOnly_well_named
      | along_step
      | apply cache_in_memory_well_named, record_named_after_itself;
        assumption
      | apply along_ask; intros ? H; exact H
      | apply along_modify; intros ? H; exact H ].
Qed.

Lemma react_well_named cwd e : along (preserving well_named) (react cwd e).
Proof.
  destruct e; try (match goal with r : Route |- _ => destruct r end);
    unfold react, onSession, onButtonPress, autoStream, autoStreamDue, onStop,
      setupWebviewRoutes, latestPhotoRoute, photosRoute, photoRoute,
      webviewRoute, rootRoute, photoMeta;
    open_host;
    repeat first
      [ apply cachePhoto_well_named
      | apply savePhotoOnly_well_named
      | along_step
      | apply along_ask; intros ? H; exact H
      | apply along_modify; intros ? H; exact H ].
Qed.

Lemma run_well_named cwd events w :
  well_named w → well_named (run cwd events w).
Proof.
  revert w. induction events as [|e rest IH]; intros w H; simpl.
  - exact H.
  - apply IH. apply (react_well_named cwd e w H).
Qed.

(** X4.  In every state the application can reach, the [filename] of
    every cached record is the name generated from the record's own
    fields: [photo_], the safe timestamp of a time value, [_], the
    record's request id (or [unknown]), and the extension of the
    record's MIME type; the time value is that of the record's timestamp
    when it has one, which is then no Invalid Date.  So the file name
    [/api/photos] shows for a record can be rebuilt from the other
    fields it shows. *)
Theorem cached_filenames_are_generated_names
    cwd files objects answers events user p :
  In p (photos_of user (run cwd events (boot cwd files objects answers))) →
  ∃ t,
    filename p
    = "photo_" ++ map_chars colon_to_hyphen (isoString (ms t)) ++ "_"
        ++ default "unknown" (requestId p) ++ extFromMime (mimeType p)
    ∧ ∀ d, timestamp p = Some d → d = DateAt t.
Proof.
  apply (run_well_named cwd events (boot cwd files objects answers)).
  intros u q. unfold photos_of. rewrite boot_photos, lookup_empty.
  intros [].
Qed.

Lemma cached_filenames_witness :
  ∃ t,
    filename (record_at (sample_photo "r1" 1000) "alice" one_second)
    = "photo_" ++ map_chars colon_to_hyphen (isoString (ms t)) ++ "_"
        ++ default "unknown"
             (requestId (record_at (sample_photo "r1" 1000) "alice" one_second))
        ++ extFromMime
             (mimeType (record_at (sample_photo "r1" 1000) "alice" one_second))
    ∧ ∀ d, timestamp (record_at (sample_photo "r1" 1000) "alice" one_second)
           = Some d → d = DateAt t.
Proof.
  apply (cached_filenames_are_generated_names "/app" ∅ ∅ willing
           [SavePhotoOnly (sample_photo "r1" 1000) "alice"] "alice").
  vm_compute. left. reflexivity.
Defined.

(** A sequence whose first part hands on a value that the invariant
    vouches for. *)
Lemma preserving_bind_value {A B} (J : World → Prop) (P : A → Prop)
    (m : M A) (k : A → M B) :
  (∀ w a, J w → completion m w = Returned a → P a) →
  along (preserving J) m → (∀ a, P a → along (preserving J) (k a)) →
  along (preserving J) (bind m k).
Proof.
  intros HP Hm Hk w Jw. specialize (Hm w Jw). specialize (HP w).
  unfold exec, completion, bind in *.
  destruct (m w) as [w' [a|e]]; simpl in *; [ | exact Hm ].
  apply Hk; [ apply (HP a Jw eq_refl) | exact Hm ].
Qed.

Section Files.

Context (source : PhotoData → Prop) (cwd : string) (answers : nat → Answer).
Hypothesis camera_in_source : ∀ n, source (shot (answers n)).

(** What the camera delivers comes from the answers of the host. *)
Lemma camera_delivers s w a :
  files_of_run source cwd answers w →
  completion (camera_requestPhoto s) w = Returned a → source a.
Proof.
  intros [Ho _]. lay_open.
  destruct (ok (oracle w (asked w))); intros [= <-].
  rewrite Ho. apply camera_in_source.
Qed.

(** A file put on the disk beside snapshots is one more snapshot. *)
Lemma files_of_run_insert photo t w :
  source photo →
  (∀ d, photo_timestamp photo = Some d → DateAt t = d) →
  files_of_run source cwd answers w →
  files_of_run source cwd answers
    (set_disk (insert (fullPath cwd photo (safe t)) (photo_buffer photo)) w).
Proof.
  intros Hs Ht [Ho Hfiles]. split; [ exact Ho | ].
  intros path data. simpl. rewrite lookup_insert.
  destruct (decide _) as [<-|]; [ | apply Hfiles ].
  intros [= <-]. exists photo, t. repeat split; auto.
  intros d E. symmetry. apply Ht, E.
Qed.

Ltac keep_files :=
  repeat first
    [ match goal with
      | |- along _ (bind (camera_requestPhoto _) _) =>
          apply (preserving_bind_value _ source);
          [ intros ? ? ? ?; eapply camera_delivers; eassumption
          | | intros ? ? ]
      | |- along _ (camera_requestPhoto _) =>
          unfold camera_requestPhoto, reject, call
      end
    | along_step
    | apply along_ask; let J := fresh in intros ? J; exact J
    | apply along_modify; let J := fresh in intros ? J; exact J
    | apply along_modify; let J := fresh in
      intros ? J; apply files_of_run_insert; assumption ].

Lemma savePhotoOnly_files photo user :
  source photo →
  along (preserving (files_of_run source cwd answers))
    (savePhotoOnly cwd photo user).
Proof.
  intros Hs. unfold savePhotoOnly.
  apply (along_bind_value _ _ _ _ (timestamp_or_now_value photo)).
  - unfold timestamp_or_now. open_services. keep_files.
  - intros d Hd. apply along_safeTimestamp; [ typeclasses eauto | ].
    intros t ->. unfold uploadToFirebase, cache_in_memory. open_services.
    keep_files.
Qed.

Lemma cachePhoto_files photo user session :
  source photo →
  along (preserving (files_of_run source cwd answers))
    (cachePhoto cwd photo user session).
Proof.
  intros Hs. unfold cachePhoto.
  apply (along_bind_value _ _ _ _ (timestamp_or_now_value photo)).
  - unfold timestamp_or_now. open_services. keep_files.
  - intros d Hd. apply along_safeTimestamp; [ typeclasses eauto | ].
    intros t ->. unfold uploadToFirebase, cache_in_memory. open_services.
    repeat first
      [ apply savePhotoOnly_files; assumption
      | progress keep_files ].
Qed.

Lemma react_files e :
  (∀ photo, event_photo e = Some photo → source photo) →
  along (preserving (files_of_run source cwd answers)) (react cwd e).
Proof.
  intros He.
  destruct e; try (match goal with r : Route |- _ => destruct r end);
    simpl in He;
    unfold react, onSession, onButtonPress, autoStream, autoStreamDue, onStop,
      setupWebviewRoutes, latestPhotoRoute, photosRoute, photoRoute,
      webviewRoute, rootRoute, photoMeta;
    open_services;
    repeat first
      [ apply cachePhoto_files; solve [ auto ]
      | apply savePhotoOnly_files; solve [ auto ]
      | progress keep_files ].
Qed.

Lemma run_files events w :
  (∀ e photo, In e events → event_photo e = Some photo → source photo) →
  files_of_run source cwd answers w →
  files_of_run source cwd answers (run cwd events w).
Proof.
  revert w. induction events as [|e rest IH]; intros w He H; simpl.
  - exact H.
  - apply IH.
    + intros e' photo Hin. apply He. right. exact Hin.
    + apply (react_files e); [ | exact H ].
      intros photo. apply He. left. reflexivity.
Qed.

End Files.

(** X5.  Every file is the snapshot of a photo the application was
    handed.  Started with no files, after any run every file there is
    holds the bytes of a photo that one of the events passed to
    [cachePhoto] or [savePhotoOnly] or that the camera delivered, and
    sits at the path [path.join] makes of the snapshots directory and
    the name generated for that photo (with the time of its own
    timestamp, if it has one).  When the request id of that photo holds
    no ["/"], the file lies directly under the snapshots directory,
    under the generated name. *)
Theorem every_file_is_a_snapshot cwd answers objects events path data :
  disk (run cwd events (boot cwd ∅ objects answers)) !! path = Some data →
  ∃ photo t,
    handed_over events answers photo
    ∧ data = photo_buffer photo
    ∧ path = path_join [SNAPSHOTS_DIR cwd; baseName photo (safe t)]
    ∧ (∀ d, photo_timestamp photo = Some d → d = DateAt t)
    ∧ (no_slash (default "unknown" (photo_requestId photo)) →
       path_dirname path = SNAPSHOTS_DIR cwd
       ∧ path_basename path = baseName photo (safe t)).
Proof.
  intros Hfile.
  assert (Hboot : files_of_run (handed_over events answers) cwd answers
                    (boot cwd ∅ objects answers)).
  { split.
    - unfold boot. lay_open. split_answers; reflexivity.
    - intros p d.
      replace (disk (boot cwd ∅ objects answers)) with (∅ : gmap string Buffer).
      + rewrite lookup_empty. discriminate.
      + unfold boot. lay_open. split_answers; reflexivity. }
  destruct (run_files (handed_over events answers) cwd answers
              (fun n => or_intror (ex_intro _ n eq_refl))
              events _ (fun e photo Hin E => or_introl (ex_intro _ e (conj Hin E)))
              Hboot) as [_ Hfiles].
  destruct (Hfiles path data Hfile) as (photo & t & Hs & Hdata & Hpath & Ht).
  exists photo, t. repeat split; try assumption.
  - rewrite Hpath, fullPath_under_snapshots by assumption.
    apply path_dirname_app, baseName_plain. assumption.
  - rewrite Hpath, fullPath_under_snapshots by assumption.
    apply path_basename_app, baseName_plain. assumption.
Qed.

Lemma every_file_is_a_snapshot_witness :
  ∃ photo t,
    handed_over [SavePhotoOnly (sample_photo "r1" 1000) "alice"] willing photo
    ∧ [Byte.x01; Byte.x02] = photo_buffer photo
    ∧ "/app/snapshots/photo_1970-01-01T00-00-01.000Z_r1.jpg"
      = path_join [SNAPSHOTS_DIR "/app"; baseName photo (safe t)]
    ∧ (∀ d, photo_timestamp photo = Some d → d = DateAt t)
    ∧ (no_slash (default "unknown" (photo_requestId photo)) →
       path_dirname "/app/snapshots/photo_1970-01-01T00-00-01.000Z_r1.jpg"
       = SNAPSHOTS_DIR "/app"
       ∧ path_basename "/app/snapshots/photo_1970-01-01T00-00-01.000Z_r1.jpg"
         = baseName photo (safe t)).
Proof.
  apply (every_file_is_a_snapshot "/app" willing ∅
           [SavePhotoOnly (sample_photo "r1" 1000) "alice"]).
  vm_compute. reflexivity.
Defined.

(** ** The routes *)

Lemma usable_nonempty user : user ≠ "" → usable (Some user) = Some user.
Proof.
  intros H. unfold usable. destruct (String.eqb user "") eqn:E;
    [ apply String.eqb_eq in E; contradiction | reflexivity ].
Qed.

Lemma cachePhoto_head cwd photo user session t w :
  filing_time photo w = Some t →
  ∃ rest,
    photos_of user (exec (cachePhoto cwd photo user session) w)
    = record_at photo user t :: rest.
Proof.
  intros Ht.
  destruct (cachePhoto_photos cwd photo user session t w Ht) as (w2 & _ & E).
  rewrite (photos_of_inserted _ _ _ _ E), unshift_capped_take.
  eexists. reflexivity.
Qed.

(** A photo with a time value or without timestamp can be filed. *)
Lemma filing_time_valid photo w :
  photo_timestamp photo ≠ Some InvalidDate → ∃ t, filing_time photo w = Some t.
Proof.
  intros H. destruct (filing_time photo w) as [t|] eqn:Et; [ eauto | ].
  apply filing_time_none in Et. contradiction.
Qed.

(** X6.  What [cachePhoto] has cached can be fetched.  For a user id
    that is not empty and a photo that has a request id: once
    [cachePhoto] has run (whatever the host answered on the way, and
    whether or not the list held that id before), the user's request for
    [/api/photo/<that id>] is answered 200 with the bytes of this photo,
    under its MIME type; unless the timestamp of the photo is an Invalid
    Date, on which [cachePhoto] throws a [RangeError] and leaves the
    state as it was. *)
Theorem cached_photo_is_served_by_its_id cwd photo user session id w :
  user ≠ "" →
  photo_requestId photo = Some id →
  let request := {| authUserId := Some user; params_requestId := id |} in
  let after := exec (cachePhoto cwd photo user session) w in
  match photo_timestamp photo with
  | Some InvalidDate =>
      completion (cachePhoto cwd photo user session) w = Thrown RangeError
      ∧ after = w
  | _ =>
      completion (photoRoute request) after
      = Returned
          {| status := 200;
             headers := [("Content-Type", photo_mimeType photo);
                         ("Cache-Control", Some "no-cache")];
             payload := Binary (photo_buffer photo) |}
  end.
Proof.
  intros Huser Hid request after.
  assert (Hserved :
            photo_timestamp photo ≠ Some InvalidDate →
            completion (photoRoute request) after
            = Returned
                {| status := 200;
                   headers := [("Content-Type", photo_mimeType photo);
                               ("Cache-Control", Some "no-cache")];
                   payload := Binary (photo_buffer photo) |}).
  { intros Hvalid. destruct (filing_time_valid photo w Hvalid) as [t Ht].
    subst request after. unfold photoRoute. simpl authUserId.
    rewrite (usable_nonempty user Huser).
    destruct (cachePhoto_head cwd photo user session t w Ht) as (rest & E).
    unfold completion, bind, gets; simpl. rewrite E. simpl.
    unfold sameRequestId at 1. simpl. rewrite Hid, String.eqb_refl.
    reflexivity. }
  destruct (photo_timestamp photo) as [[t|]|] eqn:Ets;
    [ apply Hserved; discriminate | | apply Hserved; discriminate ].
  subst after. unfold completion, exec.
  rewrite cachePhoto_unfiled by (apply filing_time_none; exact Ets).
  split; reflexivity.
Qed.

Lemma cached_photo_is_served_witness :
  completion
    (photoRoute {| authUserId := Some "alice"; params_requestId := "r1" |})
    (exec (cachePhoto "/app" (sample_photo "r1" 1000) "alice"
             (Some sample_session))
       (boot "/app" ∅ ∅ failing))
  = Returned
      {| status := 200;
         headers := [("Content-Type", photo_mimeType (sample_photo "r1" 1000));
                     ("Cache-Control", Some "no-cache")];
         payload := Binary (photo_buffer (sample_photo "r1" 1000)) |}.
Proof.
  apply (cached_photo_is_served_by_its_id "/app" (sample_photo "r1" 1000)
           "alice" (Some sample_session) "r1" (boot "/app" ∅ ∅ failing)).
  - discriminate.
  - reflexivity.
Defined.

(** X7.  Once [cachePhoto] has run for a photo, the request of its user
    (one whose id is not empty) for [/api/latest-photo] is about that
    photo: it answers with the request id and the time value of the
    photo.  For a photo without timestamp, which is cached all the same,
    [cachePhoto] and then the handler of the route throw a [TypeError];
    for one whose timestamp is an Invalid Date [cachePhoto] throws a
    [RangeError] and leaves the state as it was. *)
Theorem latest_photo_is_the_one_just_cached cwd photo user session w :
  user ≠ "" →
  let request := {| authUserId := Some user; params_requestId := "" |} in
  let after := exec (cachePhoto cwd photo user session) w in
  match photo_timestamp photo with
  | Some (DateAt t) =>
      completion (latestPhotoRoute request) after
      = Returned
          {| status := 200; headers := [];
             payload := LatestJson (photo_requestId photo) (Num (ms t)) true |}
  | Some InvalidDate =>
      completion (cachePhoto cwd photo user session) w = Thrown RangeError
      ∧ after = w
  | None =>
      completion (cachePhoto cwd photo user session) w = Thrown TypeError
      ∧ completion (latestPhotoRoute request) after = Thrown TypeError
  end.
Proof.
  intros Huser request after.
  assert (Hhead :
            ∀ t, filing_time photo w = Some t →
                 completion (latestPhotoRoute request) after
                 = match photo_timestamp photo with
                   | Some d =>
                       Returned
                         {| status := 200; headers := [];
                            payload :=
                              LatestJson (photo_requestId photo) (getTime d)
                                true |}
                   | None => Thrown TypeError
                   end).
  { intros t Ht. subst request after. unfold latestPhotoRoute.
    simpl authUserId. rewrite (usable_nonempty user Huser).
    destruct (cachePhoto_head cwd photo user session t w Ht) as (rest & E).
    unfold completion, bind, gets, method; simpl. rewrite E. simpl.
    destruct (photo_timestamp photo); reflexivity. }
  pose proof (cachePhoto_completion cwd photo user session w) as Hc.
  unfold filing_time, filing_date in Hhead.
  destruct (photo_timestamp photo) as [[t|]|] eqn:Ets; simpl in Hhead.
  - apply (Hhead t eq_refl).
  - split; [ exact Hc | ]. subst after. unfold exec.
    rewrite cachePhoto_unfiled by (apply filing_time_none; exact Ets).
    reflexivity.
  - split; [ exact Hc | apply (Hhead _ eq_refl) ].
Qed.

Lemma latest_photo_witness :
  completion
    (latestPhotoRoute {| authUserId := Some "alice"; params_requestId := "" |})
    (exec (cachePhoto "/app" (sample_photo "r1" 1000) "alice"
             (Some sample_session))
       (boot "/app" ∅ ∅ willing))
  = Returned
      {| status := 200; headers := [];
         payload := LatestJson (Some "r1") (Num 1000) true |}.
Proof.
  apply (latest_photo_is_the_one_just_cached "/app" (sample_photo "r1" 1000)
           "alice" (Some sample_session) (boot "/app" ∅ ∅ willing)).
  discriminate.
Defined.

(** X8.  In a state the application can reach, the two metadata routes
    agree for an authenticated reader: when [/api/photos] answers, its
    array has at most 50 entries, and [/api/latest-photo] answers 404 if
    the array is empty and otherwise with the request id and timestamp
    of its first entry. *)
Theorem latest_photo_is_the_first_of_photos
    cwd files objects answers events req reader items :
  usable (authUserId req) = Some reader →
  let w := run cwd events (boot cwd files objects answers) in
  completion (photosRoute req) w
  = Returned {| status := 200; headers := []; payload := PhotosJson items |} →
  (length items ≤ 50)%nat
  ∧ completion (latestPhotoRoute req) w
    = Returned
        match items with
        | [] =>
            {| status := 404; headers := [];
               payload := ErrorJson "No photo available" |}
        | item :: _ =>
            {| status := 200; headers := [];
               payload :=
                 LatestJson (item_requestId item) (item_timestamp item) true |}
        end.
Proof.
  intros Hreader w. unfold photosRoute, latestPhotoRoute. rewrite Hreader.
  destruct (map_M_photoMeta (photos_of reader w) w) as [Ew Ec].
  pose proof (run_capped cwd events _ (boot_capped cwd files objects answers)
                reader) as Hcap.
  fold w in Hcap.
  unfold completion, exec, bind, gets, method in *; simpl.
  destruct (map_M photoMeta (photos_of reader w) w) as [w' [found|e]];
    simpl in *; [ | discriminate ].
  intros [= <-]. split.
  - rewrite <- (Forall2_length _ _ _ Ec). exact Hcap.
  - destruct Ec as [|p item rest more (Hid & (d & Ht & Hg) & _) _];
      [ reflexivity | ].
    rewrite Ht, Hid, Hg. reflexivity.
Qed.

Lemma latest_photo_is_the_first_witness :
  (length
     [{| item_requestId := Some "r1"; item_timestamp := Num 1000;
         item_filename := "photo_1970-01-01T00-00-01.000Z_r1.jpg";
         item_size := 2; item_mimeType := Some "image/jpeg" |}] ≤ 50)%nat
  ∧ completion (latestPhotoRoute (alice_asks "r1"))
      (run "/app" [SavePhotoOnly (sample_photo "r1" 1000) "alice"]
         (boot "/app" ∅ ∅ willing))
    = Returned
        {| status := 200; headers := [];
           payload := LatestJson (Some "r1") (Num 1000) true |}.
Proof.
  apply (latest_photo_is_the_first_of_photos "/app" ∅ ∅ willing
           [SavePhotoOnly (sample_photo "r1" 1000) "alice"]
           (alice_asks "r1") "alice"
           [{| item_requestId := Some "r1"; item_timestamp := Num 1000;
               item_filename := "photo_1970-01-01T00-00-01.000Z_r1.jpg";
               item_size := 2; item_mimeType := Some "image/jpeg" |}]).
  - reflexivity.
  - vm_compute. reflexivity.
Defined.

(** X9.  The routes only read: a request on any route leaves the five
    maps of the application, the files and the external store as they
    were; on every route but [/webview] it leaves the whole state as it
    was, with no call to the host. *)
Theorem requests_change_nothing cwd route req w :
  stored (exec (setupWebviewRoutes cwd route req) w) = stored w
  ∧ match route with
    | Webview => True
    | _ => exec (setupWebviewRoutes cwd route req) w = w
    end.
Proof.
  destruct route; simpl setupWebviewRoutes.
  - assert (E : exec (latestPhotoRoute req) w = w).
    { lay_open. destruct (usable (authUserId req)); [ | reflexivity ].
      simpl. destruct (default [] (photos w !! s)) as [|p rest];
        [ reflexivity | ].
      destruct (timestamp p); reflexivity. }
    rewrite E. auto.
  - assert (E : exec (photosRoute req) w = w).
    { unfold photosRoute. destruct (usable (authUserId req)) as [u|];
        [ | reflexivity ].
      destruct (map_M_photoMeta (photos_of u w) w) as [Ew _].
      unfold exec, bind, gets in *; simpl.
      destruct (map_M photoMeta (photos_of u w) w) as [w' [items|e]];
        simpl in *; exact Ew. }
    rewrite E. auto.
  - assert (E : exec (photoRoute req) w = w).
    { lay_open. destruct (usable (authUserId req)); [ | reflexivity ].
      simpl.
      destruct (find _ _); reflexivity. }
    rewrite E. auto.
  - split; [ | exact I ]. lay_open.
    destruct (usable (authUserId req)); [ | reflexivity ].
    simpl. split_answers; reflexivity.
  - split; reflexivity.
Qed.


(** ** The session: stop, long press, opening *)

(** X11.  [onStop] forgets the streaming flags, the next photo times
    and the sessions of all users, and nothing else: the cached photos,
    the latest-photo timestamps, the files and the external store stay.
    After it the interval callback of any user, which keeps firing,
    does nothing: it asks the host for nothing and leaves the state as
    it is. *)
Theorem stop_keeps_the_photos_and_silences_the_loop cwd user session w :
  let stopped := exec onStop w in
  isStreamingPhotos stopped = ∅
  ∧ nextPhotoTime stopped = ∅
  ∧ sessionMap stopped = ∅
  ∧ photos stopped = photos w
  ∧ latestPhotoTimestamp stopped = latestPhotoTimestamp w
  ∧ disk stopped = disk w
  ∧ bucket stopped = bucket w
  ∧ completion onStop w = Returned tt
  ∧ exec (autoStream cwd user session) stopped = stopped.
Proof.
  lay_open. repeat split.
Qed.

(** X12.  A long press only toggles the streaming flag of the user (a
    flag that is not there counts as off): it asks the camera for
    nothing and leaves the cache, the next photo time, the files and
    the external store as they were; a second long press brings the
    flag back. *)
Theorem long_press_toggles_streaming cwd user session button w :
  pressType button = "long" →
  let press := onButtonPress cwd user session button in
  let once := exec press w in
  isStreamingPhotos once
  = <[user := negb (truthy (isStreamingPhotos w !! user))]>
      (isStreamingPhotos w)
  ∧ isStreamingPhotos (exec press once) !! user
    = Some (truthy (isStreamingPhotos w !! user))
  ∧ issued press w
    = [Log Info
         (StreamingIsNow user
            (Some (negb (truthy (isStreamingPhotos w !! user)))));
       Log Info (ButtonPressed button)]
  ∧ (photos once, latestPhotoTimestamp once, nextPhotoTime once,
     sessionMap once, disk once, bucket once)
    = (photos w, latestPhotoTimestamp w, nextPhotoTime w,
       sessionMap w, disk w, bucket w)
  ∧ completion press w = Returned tt.
Proof.
  intros Hlong press once. subst press once. unfold issued. lay_open.
  rewrite Hlong. simpl. rewrite !lookup_insert_eq. simpl.
  rewrite negb_involutive. read_issued. repeat split.
Qed.

Lemma long_press_witness :
  isStreamingPhotos
    (exec (onButtonPress "/app" "alice" sample_session (sample_press "long"))
       (boot "/app" ∅ ∅ willing))
  = <[ "alice" :=
        negb (truthy (isStreamingPhotos (boot "/app" ∅ ∅ willing) !! "alice"))]>
      (isStreamingPhotos (boot "/app" ∅ ∅ willing)).
Proof.
  exact (proj1
           (long_press_toggles_streaming "/app" "alice" sample_session
              (sample_press "long") (boot "/app" ∅ ∅ willing) eq_refl)).
Defined.


(** ** Captures: how often the camera is asked, and when the loop tries again *)

(** Every answer of the host and every timestamp of a delivered photo
    that decides a branch, split into its cases. *)
Ltac split_cases :=
  repeat match goal with
         | |- context [ok (?o ?n)] => destruct (ok (o n)) eqn:?; simpl
         | |- context [photo_timestamp (shot (?o ?n))] =>
             destruct (photo_timestamp (shot (o n))) as [[?|]|] eqn:?; simpl
         end.

(** *** Counting the requests to the camera *)

Lemma camera_requests_app a b :
  camera_requests (a ++ b) = (camera_requests a + camera_requests b)%nat.
Proof. unfold camera_requests. rewrite List.filter_app, length_app. reflexivity. Qed.

Lemma asks_refl n w : asks_at_most n w w.
Proof. exists []. split; [ reflexivity | unfold camera_requests; simpl; lia ]. Qed.

Lemma asks_trans a b n w1 w2 w3 :
  asks_at_most a w1 w2 → asks_at_most b w2 w3 → (a + b ≤ n)%nat →
  asks_at_most n w1 w3.
Proof.
  intros (n1 & E1 & H1) (n2 & E2 & H2) Hn. exists (n2 ++ n1)%list. split.
  - rewrite E2, E1. apply app_assoc.
  - rewrite camera_requests_app. lia.
Qed.

Lemma asks_bind {A B} a b n (m : M A) (k : A → M B) :
  along (asks_at_most a) m → (∀ x, along (asks_at_most b) (k x)) →
  (a + b ≤ n)%nat → along (asks_at_most n) (bind m k).
Proof.
  intros Hm Hk Hn w. specialize (Hm w). unfold exec, bind in *.
  destruct (m w) as [w' [x|e]]; simpl in *.
  - eapply asks_trans; [ exact Hm | apply Hk | exact Hn ].
  - eapply asks_trans; [ exact Hm | apply asks_refl | exact Hn ].
Qed.

Lemma asks_try {A} a b n (m : M A) (h : Exn → M A) :
  along (asks_at_most a) m → (∀ e, along (asks_at_most b) (h e)) →
  (a + b ≤ n)%nat → along (asks_at_most n) (try_catch m h).
Proof.
  intros Hm Hh Hn w. specialize (Hm w). unfold exec, try_catch in *.
  destruct (m w) as [w' [x|e]]; simpl in *.
  - eapply asks_trans; [ exact Hm | apply asks_refl | exact Hn ].
  - eapply asks_trans; [ exact Hm | apply Hh | exact Hn ].
Qed.

Lemma asks_quiet n f :
  (∀ w, history (f w) = history w) → along (asks_at_most n) (modify f).
Proof.
  intros Hf w. exists []. split; [ apply Hf | unfold camera_requests; simpl; lia ].
Qed.

Lemma asks_ask n : along (asks_at_most n) ask.
Proof.
  intros w. exists []. split; [ reflexivity | unfold camera_requests; simpl; lia ].
Qed.

Lemma asks_issue n c :
  is_request c = false → along (asks_at_most n) (modify (issue c)).
Proof.
  intros Hc w. exists [c]. split; [ reflexivity | ].
  unfold camera_requests. simpl. rewrite Hc. simpl. lia.
Qed.

Lemma asks_request n s :
  (1 ≤ n)%nat → along (asks_at_most n) (modify (issue (RequestPhoto s))).
Proof. intros Hn w. exists [RequestPhoto s]. split; [ reflexivity | exact Hn ]. Qed.

(** Bounds the requests of a computation by [n], giving each part of a
    sequence the least share that it can do with. *)
Ltac count_requests n :=
  lazymatch goal with
  | |- along _ (ret _) => intros ?; apply asks_refl
  | |- along _ (throw _) => intros ?; apply asks_refl
  | |- along _ (gets _) => intros ?; apply asks_refl
  | |- along _ ask => apply asks_ask
  | |- along _ (modify (issue _)) =>
      first [ apply asks_issue; reflexivity | apply asks_request; lia ]
  | |- along _ (modify _) => apply asks_quiet; intros ?; reflexivity
  | |- along _ (bind _ _) =>
      first
        [ apply (asks_bind 0 n);
          [ solve [ count_requests 0%nat ] | intros ?; count_requests n | lia ]
        | lazymatch n with
          | S ?k =>
              first
                [ apply (asks_bind 1 k);
                  [ solve [ count_requests 1%nat ]
                  | intros ?; count_requests k | lia ]
                | apply (asks_bind n 0);
                  [ count_requests n
                  | intros ?; count_requests 0%nat | lia ] ]
          end ]
  | |- along _ (try_catch _ _) =>
      first
        [ apply (asks_try n 0);
          [ count_requests n | intros ?; count_requests 0%nat | lia ]
        | apply (asks_try 0 n);
          [ solve [ count_requests 0%nat ] | intros ?; count_requests n | lia ] ]
  | |- along _ (if ?b then _ else _) => destruct b; count_requests n
  | |- along _ (match ?x with _ => _ end) => destruct x; count_requests n
  end.

Lemma savePhotoOnly_asks cwd photo user n :
  along (asks_at_most n) (savePhotoOnly cwd photo user).
Proof. open_all. unfold cache_in_memory, method. count_requests n. Qed.

Lemma cachePhoto_asks cwd photo user session n :
  (1 ≤ n)%nat → along (asks_at_most n) (cachePhoto cwd photo user session).
Proof.
  intros Hn. destruct n as [|n]; [ lia | ].
  open_all. unfold cache_in_memory, method. count_requests (S n).
Qed.

Lemma camera_asks s n :
  (1 ≤ n)%nat → along (asks_at_most n) (camera_requestPhoto s).
Proof.
  intros Hn. destruct n as [|n]; [ lia | ].
  unfold camera_requestPhoto, reject, call. count_requests (S n).
Qed.

(** The same for a handler: the camera may be asked once by the handler
    and once more by [cachePhoto]. *)
Ltac count_handler :=
  repeat first
    [ apply cachePhoto_asks; lia
    | match goal with
      | |- along _ (try_catch _ _) =>
          apply (asks_try 2 0); [ | intros ?; count_requests 0%nat | lia ]
      | |- along _ (bind (camera_requestPhoto _) _) =>
          apply (asks_bind 1 1); [ apply camera_asks; lia | intros ? | lia ]
      | |- along (asks_at_most ?n) (bind (cachePhoto _ _ _ _) _) =>
          apply (asks_bind n 0);
          [ apply cachePhoto_asks; lia | intros ?; count_requests 0%nat | lia ]
      | |- along (asks_at_most ?n) (bind _ _) =>
          apply (asks_bind 0 n);
          [ solve [ count_requests 0%nat ] | intros ? | lia ]
      | |- along _ (if ?b then _ else _) => destruct b
      | |- along (asks_at_most ?n) _ => solve [ count_requests n ]
      end ].

Lemma at_most_issued {A} n (m : M A) w :
  along (asks_at_most n) m → (camera_requests (issued m w) ≤ n)%nat.
Proof.
  intros H. destruct (H w) as (new & E & Hn). unfold issued.
  rewrite E, take_new. exact Hn.
Qed.

(** X14.  One capture never leads to more than two photos:
    [savePhotoOnly] does not ask the camera; [cachePhoto] asks it once,
    for the follow-up photo, when it was given a session, its photo
    could be filed (its timestamp is no Invalid Date) and the file was
    written, and not at all otherwise; so a button press and a firing
    of the interval ask the camera at most twice. *)
Theorem one_capture_takes_at_most_one_follow_up
    cwd photo user session s button w :
  camera_requests (issued (savePhotoOnly cwd photo user) w) = 0%nat
  ∧ camera_requests (issued (cachePhoto cwd photo user session) w)
    = match session, filing_time photo w with
      | Some _, Some _ => if ok (write_answer photo w) then 1%nat else 0%nat
      | _, _ => 0%nat
      end
  ∧ (camera_requests (issued (onButtonPress cwd user s button) w) ≤ 2)%nat
  ∧ (camera_requests (issued (autoStream cwd user s) w) ≤ 2)%nat.
Proof.
  split; [ | split; [ | split ] ].
  - pose proof (at_most_issued 0 _ w (savePhotoOnly_asks cwd photo user 0)).
    lia.
  - unfold issued. lay_open.
    destruct session, (photo_timestamp photo) as [[t|]|]; simpl;
      split_cases; rewrite ?Nat.sub_diag; read_issued; reflexivity.
  - apply at_most_issued. unfold onButtonPress. open_services.
    count_handler.
  - apply at_most_issued. unfold autoStream, autoStreamDue. open_services.
    count_handler.
Qed.

(** X15.  When the interval fires and a photo is due, the callback
    first moves the user's next photo time 30 seconds past the clock.
    If the camera then rejects the request, the time stays there, the
    error is logged and nothing is cached or written: the loop does not
    try again for 30 seconds.  If the camera delivers, the time is set
    back to the reading of the clock taken after the capture, whatever
    becomes of the caching. *)
Theorem due_tick_postpones_the_next_photo cwd user session w :
  due user w = true →
  let tick := autoStream cwd user session in
  let started := ms (clock (oracle w (S (asked w)))) in
  let captured := ms (clock (oracle w (S (S (S (asked w)))))) in
  if ok (oracle w (S (S (asked w))))
  then nextPhotoTime (exec tick w) = <[user := captured]> (nextPhotoTime w)
  else nextPhotoTime (exec tick w)
       = <[user := started + 30000]> (nextPhotoTime w)
       ∧ (photos (exec tick w), latestPhotoTimestamp (exec tick w),
          disk (exec tick w), bucket (exec tick w))
         = (photos w, latestPhotoTimestamp w, disk w, bucket w)
       ∧ issued tick w
         = [Log Error (ErrorAutoTakingPhoto CameraError);
            Rejected CameraError;
            RequestPhoto session;
            Log Info (AutoStreamRequesting user);
            Log Info (AutoStreamTriggered user)].
Proof.
  intros Hdue tick started captured. subst tick started captured.
  unfold due, next_answer in Hdue. apply andb_true_iff in Hdue as [Hflag Hnow].
  unfold issued. lay_open. rewrite Hflag. simpl. rewrite Hnow. simpl.
  destruct (ok (oracle w (S (S (asked w))))) eqn:Hcam; simpl.
  - split_cases; apply insert_insert_eq.
  - read_issued. repeat split.
Qed.

Lemma due_tick_witness :
  nextPhotoTime
    (exec (autoStream "/app" "alice" sample_session)
       (exec (onButtonPress "/app" "alice" sample_session (sample_press "long"))
          (fresh ∅ ∅ failing)))
  = <[ "alice" := 9000 + 30000 ]>
      (nextPhotoTime
         (exec (onButtonPress "/app" "alice" sample_session
                  (sample_press "long"))
            (fresh ∅ ∅ failing))).
Proof.
  exact (proj1
           (due_tick_postpones_the_next_photo "/app" "alice" sample_session
              (exec (onButtonPress "/app" "alice" sample_session
                       (sample_press "long"))
                 (fresh ∅ ∅ failing))
              eq_refl)).
Defined.

#[local] Instance adding_preorder P : PreOrder (adding P).
Proof.
  split.
  - intros w. exists []. split; reflexivity.
  - intros a b c (n1 & E1 & H1) (n2 & E2 & H2). exists (n2 ++ n1)%list. split.
    + rewrite E2, E1. apply app_assoc.
    + rewrite forallb_app, H1, H2. reflexivity.
Qed.

Lemma no_upload_issued {A} (m : M A) w :
  along (adding no_upload) m → List.filter is_upload (issued m w) = [].
Proof.
  intros H. destruct (H w) as (new & E & Hnew). unfold issued.
  rewrite E, take_new. clear E.
  induction new as [|c new IH]; [ reflexivity | ].
  simpl in *. apply andb_true_iff in Hnew as [Hc Hnew].
  unfold no_upload in Hc. destruct (is_upload c); [ discriminate | auto ].
Qed.

Ltac open_original :=
  unfold OriginalApp.onButtonPress, OriginalApp.autoStream,
    Original.cachePhoto, Original.cache_in_memory, safeTimestamp;
  open_host.

(** Every step adds nothing to the history, or one call that is no
    upload. *)
Ltac no_uploads :=
  repeat first
    [ along_step
    | apply along_ask; intros ?; exists []; split; reflexivity
    | apply along_modify; intros ?;
      first [ exists []; split; reflexivity
            | eexists [_]; split; reflexivity ] ].

(** X16.  In the earlier revision a capture is one photo and stays on
    the machine: its [cachePhoto] asks the camera for nothing and its
    button press and interval callback ask it at most once; none of
    them issues an upload or changes the external store. *)
Theorem earlier_revision_takes_one_photo_and_uploads_nothing
    cwd photo user session button w :
  let cache := Original.cachePhoto cwd photo user in
  let press := OriginalApp.onButtonPress cwd user session button in
  let tick := OriginalApp.autoStream cwd user session in
  camera_requests (issued cache w) = 0%nat
  ∧ (camera_requests (issued press w) ≤ 1)%nat
  ∧ (camera_requests (issued tick w) ≤ 1)%nat
  ∧ List.filter is_upload (issued cache w) = []
  ∧ List.filter is_upload (issued press w) = []
  ∧ List.filter is_upload (issued tick w) = []
  ∧ bucket (exec cache w) = bucket w
  ∧ bucket (exec press w) = bucket w
  ∧ bucket (exec tick w) = bucket w.
Proof.
  intros cache press tick. subst cache press tick.
  assert (H0 : (camera_requests
                  (issued (Original.cachePhoto cwd photo user) w) ≤ 0)%nat)
    by (apply at_most_issued; open_original; count_requests 0%nat).
  split; [ lia | ].
  split; [ apply at_most_issued; open_original; count_requests 1%nat | ].
  split; [ apply at_most_issued; open_original; count_requests 1%nat | ].
  split; [ apply no_upload_issued; open_original; no_uploads | ].
  split; [ apply no_upload_issued; open_original; no_uploads | ].
  split; [ apply no_upload_issued; open_original; no_uploads | ].
  assert (Hsame : ∀ m : M unit, along (same bucket) m → bucket (exec m w) = bucket w)
    by (intros m H; apply H).
  repeat split; apply Hsame; open_original;
    repeat first
      [ along_step
      | apply along_modify; intros ?; reflexivity
      | apply along_ask; intros ?; reflexivity ].
Qed.

(** ** The snapshots directory and the generated names *)

Lemma SNAPSHOTS_DIR_ends_in_snapshots cwd :
  ∃ front, SNAPSHOTS_DIR cwd = front ++ "snapshots"
           ∧ (front = "" ∨ ∃ dir, front = dir ++ "/").
Proof.
  destruct (SNAPSHOTS_DIR_form cwd) as (stack & _ & E). rewrite E.
  change (rev ("snapshots" :: stack)) with (rev stack ++ ["snapshots"])%list.
  destruct (rev stack) as [|p l] eqn:Er.
  - exists (if starts_with_slash cwd then "/" else ""). split; [ reflexivity | ].
    destruct (starts_with_slash cwd); [ right; exists ""; reflexivity | auto ].
  - rewrite join_with_snoc by discriminate.
    exists ((if starts_with_slash cwd then "/" else "")
              ++ join_with "/" (p :: l) ++ "/").
    split; [ rewrite !sapp_assoc; reflexivity | right ].
    eexists. rewrite <- sapp_assoc. reflexivity.
Qed.

(** X17.  Wherever the process runs, the directory for the snapshots is
    named [snapshots] and its path does not end in a slash.  Creating
    it at boot never stops the application: [ensureSnapshotsDirExists]
    asks for that one directory, logs that it is ready or, when the
    host refuses, a warning with the error, returns normally either
    way, and touches neither the cache nor the files nor the store. *)
Theorem snapshots_directory_is_made_or_a_warning_logged cwd w :
  path_basename (SNAPSHOTS_DIR cwd) = "snapshots"
  ∧ ends_with_slash (SNAPSHOTS_DIR cwd) = false
  ∧ completion (ensureSnapshotsDirExists cwd) w = Returned tt
  ∧ issued (ensureSnapshotsDirExists cwd) w
    = (if ok (next_answer w)
       then [Log Info (SnapshotsDirReady (SNAPSHOTS_DIR cwd));
             Mkdir (SNAPSHOTS_DIR cwd)]
       else [Log Warn (CouldNotCreateSnapshotsDir MkdirError);
             Rejected MkdirError;
             Mkdir (SNAPSHOTS_DIR cwd)])
  ∧ stored (exec (ensureSnapshotsDirExists cwd) w) = stored w.
Proof.
  split; [ | split ].
  - destruct (SNAPSHOTS_DIR_ends_in_snapshots cwd) as (front & -> & [->|[dir ->]]).
    + reflexivity.
    + rewrite sapp_assoc. apply path_basename_app. reflexivity.
  - destruct (SNAPSHOTS_DIR_ends_in_snapshots cwd) as (front & -> & _).
    rewrite ends_with_slash_app by discriminate. reflexivity.
  - unfold issued, stored. lay_open. split_answers; read_issued; repeat split.
Qed.

Lemma extFromMime_no_colon mime : occurs ":" (extFromMime mime) = false.
Proof.
  unfold extFromMime. destruct mime as [mime|]; [ | reflexivity ].
  repeat match goal with
         | |- context [if ?b then _ else _] => destruct b
         end; reflexivity.
Qed.

(** X18.  A generated file name holds a colon or a slash only if the
    request id of the photo (or [unknown], when it has none) holds one:
    the prefix, the safe timestamp and the extension never do. *)
Theorem only_the_request_id_can_spoil_a_name photo t :
  occurs ":" (baseName photo (safe t))
  = occurs ":" (default "unknown" (photo_requestId photo))
  ∧ occurs "/" (baseName photo (safe t))
    = occurs "/" (default "unknown" (photo_requestId photo)).
Proof.
  unfold baseName. rewrite !occurs_app.
  rewrite safe_no_colon, safe_no_slash.
  rewrite extFromMime_no_colon, extFromMime_no_slash.
  change (occurs ":" "photo_") with false.
  change (occurs "/" "photo_") with false.
  change (occurs ":" "_") with false.
  change (occurs "/" "_") with false.
  rewrite !orb_false_r. split; reflexivity.
Qed.

(** X21.  For a photo that can be filed and whose request id (or
    ["unknown"] when it has none) holds no ["/"], the file [cachePhoto]
    and [savePhotoOnly] write lies directly under the snapshots
    directory and its basename is [photo_<iso-timestamp>_<requestId><ext>]:
    the ISO string of the photo's timestamp (of the clock, when it has
    none) with every colon replaced by a hyphen, the request id, and the
    extension of the MIME type.  [savePhotoOnly] writes no other file,
    the file holds the bytes of the photo once the host has accepted the
    write, and that name is the [filename] of the cached record. *)
Theorem snapshot_file_is_named_after_the_photo cwd photo user session t w :
  no_slash (default "unknown" (photo_requestId photo)) →
  filing_time photo w = Some t →
  let name :=
    "photo_"
      ++ map_chars colon_to_hyphen (isoString (ms t))
      ++ "_" ++ default "unknown" (photo_requestId photo)
      ++ extFromMime (photo_mimeType photo) in
  let path := SNAPSHOTS_DIR cwd ++ "/" ++ name in
  path_dirname path = SNAPSHOTS_DIR cwd
  ∧ path_basename path = name
  ∧ occurs ":" (map_chars colon_to_hyphen (isoString (ms t))) = false
  ∧ In (WriteFile path (photo_buffer photo))
       (issued (cachePhoto cwd photo user session) w)
  ∧ In (WriteFile path (photo_buffer photo))
       (issued (savePhotoOnly cwd photo user) w)
  ∧ (∀ path' data,
        In (WriteFile path' data) (issued (savePhotoOnly cwd photo user) w) →
        path' = path ∧ data = photo_buffer photo)
  ∧ (ok (write_answer photo w) = true →
     disk (exec (savePhotoOnly cwd photo user) w) !! path
     = Some (photo_buffer photo))
  ∧ option_map filename (record_of photo user w) = Some name.
Proof.
  intros Hid Ht name path.
  pose proof (baseName_plain photo t Hid) as [Hname _].
  pose proof (fullPath_under_snapshots cwd photo t Hid) as Epath.
  change (baseName photo (safe t)) with name in Hname, Epath.
  fold path in Epath.
  destruct (savePhotoOnly_writes cwd photo user t w Ht) as (Hin & Honly & Hdisk).
  pose proof (cachePhoto_issues_write cwd photo user session t w Ht) as Hcache.
  rewrite Epath in Hin, Honly, Hdisk, Hcache.
  split; [ apply path_dirname_app, Hname | ].
  split; [ apply path_basename_app, Hname | ].
  split; [ apply safe_no_colon | ].
  split; [ exact Hcache | ].
  split; [ exact Hin | ].
  split; [ exact Honly | ].
  split; [ exact Hdisk | ].
  unfold record_of. rewrite Ht. reflexivity.
Qed.

Lemma snapshot_file_witness :
  In (WriteFile "/app/snapshots/photo_1970-01-01T00-00-01.000Z_r1.jpg"
        [Byte.x01; Byte.x02])
     (issued (cachePhoto "/app" (sample_photo "r1" 1000) "alice" None)
        (boot "/app" ∅ ∅ willing))
  ∧ disk (exec (savePhotoOnly "/app" (sample_photo "r1" 1000) "alice")
            (boot "/app" ∅ ∅ willing))
      !! "/app/snapshots/photo_1970-01-01T00-00-01.000Z_r1.jpg"
    = Some [Byte.x01; Byte.x02].
Proof.
  pose proof (snapshot_file_is_named_after_the_photo "/app"
                (sample_photo "r1" 1000) "alice" None one_second
                (boot "/app" ∅ ∅ willing) eq_refl eq_refl)
    as (_ & _ & _ & Hcache & _ & _ & Hdisk & _).
  split; [ exact Hcache | exact (Hdisk eq_refl) ].
Defined.

(** ** Memory, file and store after a capture that went well *)

(** X19.  When [savePhotoOnly] runs for a photo whose timestamp holds a
    time value and the host accepts both the write and the upload, the three
    copies agree: the record at index 0 of the user's list names a file
    of the snapshots directory that holds the bytes of the record, and
    the external store holds, under the key of the record, an object
    read from that file and marked with the record's user, request id
    and MIME type. *)
Theorem a_saved_photo_is_in_memory_on_disk_and_in_the_store
    cwd photo user t w :
  photo_timestamp photo = Some (DateAt t) →
  ok (oracle w (asked w)) = true →
  ok (oracle w (S (asked w))) = true →
  let saved := exec (savePhotoOnly cwd photo user) w in
  ∃ p rest,
    photos_of user saved = p :: rest
    ∧ userId p = user
    ∧ buffer p = photo_buffer photo
    ∧ disk saved !! path_join [SNAPSHOTS_DIR cwd; filename p]
      = Some (buffer p)
    ∧ ∃ obj,
        bucket saved !! ("sessions/" ++ userId p ++ "/images/" ++ filename p)
        = Some obj
        ∧ source obj = path_join [SNAPSHOTS_DIR cwd; filename p]
        ∧ meta_userId (metadata obj) = userId p
        ∧ meta_requestId (metadata obj) = requestId p
        ∧ contentType (metadata obj) = mimeType p.
Proof.
  intros Ht Hwrite Hupload saved. subst saved.
  exists (record_at photo user t).
  assert (Et : filing_time photo w = Some t)
    by (unfold filing_time, filing_date; rewrite Ht; reflexivity).
  pose proof (savePhotoOnly_photos cwd photo user t w Et) as E.
  unfold write_answer in E. rewrite Ht, Hwrite in E.
  rewrite (photos_of_inserted _ _ _ _ E), unshift_capped_take.
  eexists. split; [ reflexivity | ].
  split; [ reflexivity | ]. split; [ reflexivity | ].
  lay_open. rewrite Ht. simpl. rewrite Hwrite. simpl. rewrite Hupload. simpl.
  split; [ apply lookup_insert_eq | ].
  eexists. split; [ apply lookup_insert_eq | repeat split ].
Qed.

Lemma a_saved_photo_witness :
  ∃ p rest,
    photos_of "alice"
      (exec (savePhotoOnly "/app" (sample_photo "r1" 1000) "alice")
         (fresh ∅ ∅ willing))
    = p :: rest
    ∧ userId p = "alice"
    ∧ buffer p = photo_buffer (sample_photo "r1" 1000)
    ∧ disk (exec (savePhotoOnly "/app" (sample_photo "r1" 1000) "alice")
              (fresh ∅ ∅ willing))
        !! path_join [SNAPSHOTS_DIR "/app"; filename p]
      = Some (buffer p)
    ∧ ∃ obj,
        bucket (exec (savePhotoOnly "/app" (sample_photo "r1" 1000) "alice")
                  (fresh ∅ ∅ willing))
          !! ("sessions/" ++ userId p ++ "/images/" ++ filename p)
        = Some obj
        ∧ source obj = path_join [SNAPSHOTS_DIR "/app"; filename p]
        ∧ meta_userId (metadata obj) = userId p
        ∧ meta_requestId (metadata obj) = requestId p
        ∧ contentType (metadata obj) = mimeType p.
Proof.
  apply (a_saved_photo_is_in_memory_on_disk_and_in_the_store "/app"
           (sample_photo "r1" 1000) "alice" one_second (fresh ∅ ∅ willing));
    reflexivity.
Defined.

(** ** What the camera delivers is cached *)

Lemma same_after_try {X A} (f : World → X) (m : M A) (h : Exn → M A) w :
  (∀ e, along (same f) (h e)) → f (exec (try_catch m h) w) = f (exec m w).
Proof.
  intros Hh. unfold exec, try_catch.
  destruct (m w) as [w' [a|e]]; simpl; [ reflexivity | apply Hh ].
Qed.

Lemma camera_delivered s w :
  ok (next_answer w) = true →
  camera_requestPhoto s w
  = (consume (issue (RequestPhoto s) w), Returned (shot (next_answer w))).
Proof.
  intros H. unfold next_answer in *. lay_open. rewrite H. reflexivity.
Qed.

(** What becomes of a photo the camera has delivered to a handler that
    logs what [cachePhoto] throws: it is at index 0 of the list, unless
    it cannot be filed, and then the lists are as they were and the
    [RangeError] is logged. *)
Lemma delivered_photo_cached cwd photo user session (msg : Exn → LogMsg)
    (after : M unit) w :
  (∀ a : unit, along (same photos) after) →
  let handled :=
    exec (try_catch (cachePhoto cwd photo user (Some session) ;; after)
            (fun error => logger_error (msg error))) w in
  match photo_timestamp photo with
  | Some InvalidDate =>
      handled = issue (Log Error (msg RangeError)) w
  | _ =>
      ∃ t rest, photos_of user handled = record_at photo user t :: rest
  end.
Proof.
  intros Hafter handled.
  assert (Hcached :
            ∀ t, filing_time photo w = Some t →
                 ∃ t rest, photos_of user handled = record_at photo user t :: rest).
  { intros t Ht.
    destruct (cachePhoto_head cwd photo user (Some session) t w Ht)
      as (rest & E).
    exists t, rest. rewrite <- E. subst handled. unfold photos_of.
    rewrite same_after_try by (intros e; frame).
    rewrite same_after_bind by exact Hafter. reflexivity. }
  unfold filing_time, filing_date in Hcached.
  destruct (photo_timestamp photo) as [[t|]|] eqn:Ets; simpl in Hcached;
    [ apply (Hcached _ eq_refl) | | apply (Hcached _ eq_refl) ].
  subst handled. unfold exec, try_catch, bind.
  rewrite cachePhoto_unfiled by (apply filing_time_none; exact Ets).
  reflexivity.
Qed.

(** X20.  A photo the camera delivers to a handler is cached at once at
    index 0 of the user's list, whatever the file system and the store
    answer afterwards: after a press that is not long, and after a
    firing of the interval that was due, the first record of the list
    is the record of the delivered photo (its bytes, request id, MIME
    type and timestamp, under a generated name).  The one photo that is
    not cached is one whose timestamp is an Invalid Date: [cachePhoto]
    throws on it before it does anything, the handler logs the
    [RangeError], and the lists stay as they were. *)
Theorem a_delivered_photo_is_cached_first cwd user session button w :
  let press := onButtonPress cwd user session button in
  let tick := autoStream cwd user session in
  (String.eqb (pressType button) "long" = false →
   ok (oracle w (asked w)) = true →
   let photo := shot (oracle w (asked w)) in
   match photo_timestamp photo with
   | Some InvalidDate =>
       photos (exec press w) = photos w
       ∧ issued press w
         = [Log Error (ErrorTakingPhoto RangeError);
            Log Info (PhotoTaken user (Some InvalidDate));
            RequestPhoto session;
            ShowTextWall "Taking photo…" 4000;
            Log Info (ButtonPressed button)]
   | _ =>
       ∃ t rest,
         photos_of user (exec press w) = record_at photo user t :: rest
   end)
  ∧ (due user w = true →
     ok (oracle w (S (S (asked w)))) = true →
     let photo := shot (oracle w (S (S (asked w)))) in
     match photo_timestamp photo with
     | Some InvalidDate =>
         photos (exec tick w) = photos w
         ∧ In (Log Error (ErrorAutoTakingPhoto RangeError)) (issued tick w)
     | _ =>
         ∃ t rest,
           photos_of user (exec tick w) = record_at photo user t :: rest
     end).
Proof.
  intros press tick. subst press tick. split.
  - intros Hshort Hcam photo.
    set (w1 := issue (Log Info (PhotoTaken user (photo_timestamp photo)))
                 (consume
                    (issue (RequestPhoto session)
                       (issue (ShowTextWall "Taking photo…" 4000)
                          (issue (Log Info (ButtonPressed button)) w))))).
    assert (E : exec (onButtonPress cwd user session button) w
                = exec (try_catch
                          (cachePhoto cwd photo user (Some session) ;; ret tt)
                          (fun error => logger_error (ErrorTakingPhoto error)))
                    w1).
    { unfold onButtonPress. rewrite Hshort.
      unfold exec, bind, try_catch, logger_info, layouts_showTextWall, call,
        modify, ret.
      rewrite camera_delivered by exact Hcam.
      change (cachePhoto cwd _ user (Some session) _)
        with (cachePhoto cwd photo user (Some session) w1).
      destruct (cachePhoto _ _ _ _ w1) as [w' [[]|e]]; reflexivity. }
    pose proof (delivered_photo_cached cwd photo user session ErrorTakingPhoto
                  (ret tt) w1 (fun _ => along_ret _ tt)) as H.
    cbv zeta in H. unfold issued. rewrite E.
    destruct (photo_timestamp photo) as [[t|]|] eqn:Ets; try exact H.
    rewrite H. split; [ reflexivity | ].
    unfold w1. simpl. read_issued. reflexivity.
  - intros Hdue Hcam photo. unfold due, next_answer in Hdue.
    apply andb_true_iff in Hdue as [Hflag Hnow].
    set (w1 := issue (Log Info AutoStreamAboutToCache)
                 (set_nextPhotoTime
                    (insert user (ms (clock (oracle w (S (S (S (asked w))))))))
                    (consume
                       (issue (Log Info
                                 (AutoStreamCaptured user (photo_timestamp photo)))
                          (consume
                             (issue (RequestPhoto session)
                                (issue (Log Info (AutoStreamRequesting user))
                                   (set_nextPhotoTime
                                      (insert user
                                         (ms (clock (oracle w (S (asked w))))
                                          + 30000))
                                      (consume
                                         (issue
                                            (Log Info (AutoStreamTriggered user))
                                            (consume w))))))))))).
    assert (E : exec (autoStream cwd user session) w
                = exec (try_catch
                          (cachePhoto cwd photo user (Some session) ;;
                           logger_info AutoStreamCacheCompleted)
                          (fun error =>
                             logger_error (ErrorAutoTakingPhoto error)))
                    w1).
    { unfold autoStream.
      rewrite (exec_bind_returned _ _ _ _ (autoStreamDue_completion user w)).
      unfold due, next_answer. rewrite Hflag, Hnow. simpl andb. cbv iota.
      rewrite autoStreamDue_exec, Hflag.
      unfold Date_now, logger_info, call.
      unfold exec, bind, try_catch, gets, ask, modify, ret.
      rewrite camera_delivered by exact Hcam.
      change (cachePhoto cwd _ user (Some session) _)
        with (cachePhoto cwd photo user (Some session) w1).
      destruct (cachePhoto _ _ _ _ w1) as [w' [[]|e]]; reflexivity. }
    pose proof (delivered_photo_cached cwd photo user session
                  ErrorAutoTakingPhoto (logger_info AutoStreamCacheCompleted)
                  w1) as H.
    cbv zeta in H. unfold issued. rewrite E.
    destruct (photo_timestamp photo) as [[t|]|] eqn:Ets;
      try (apply H; intros _; frame).
    rewrite H by (intros _; frame). split; [ reflexivity | ].
    unfold w1. simpl. read_issued. simpl. auto.
Qed.
